(** * doctorVideoApi: the Express backend for doctor records and their videos

    A shallow embedding of the two server files of the repository:
    - variant B, [src/server.js]: the merged video stays on the local disk as
      [final_video.webm];
    - variant A, [src/unnamed/part_000]: the merged video is pushed to
      Cloudinary and the local merged file is removed.

    Every route handler becomes a function on an explicit [world] (local file
    system, Mongo collection, console log).  What a handler obtains from the
    outside (the uuid of [uuidv4()], the clock of [Date.now()], the replies of
    Cloudinary) is an argument of the function.

    Modelling decisions, all visible in the definitions below:
    - POSIX paths ([path.join] of Node on Linux); file names and path segments
      are strings of 8-bit characters, compared code unit by code unit as
      [Array.prototype.sort] without comparator does;
    - the file system knows regular files and directories; only the errors
      that the directory structure itself causes (ENOENT, ENOTDIR, EISDIR,
      ENOTEMPTY, EEXIST, EBUSY) are raised, permissions and device errors are
      not modelled;
    - [fs.createWriteStream] opens its file on a later tick (Node 15 and
      later): all the synchronous reads of the handler see the file system
      as it was before the output file is truncated;
    - the Mongo collection does not fail for reasons of infrastructure;
    - an [async] handler without [try]/[catch] whose awaited promise rejects
      sends no response itself: its outcome is [None];
    - the notification mail, and what [express.static] serves under
      [/videos], are not modelled. *)

From stdpp Require Import base strings list gmap sorting.
From Stdlib Require Import Ascii NArith ZArith Lia.

Local Open Scope N_scope.

(** ** Strings as JavaScript uses them *)

(** [s.endsWith(suffix)]: [suffix] is [s] or it ends what follows the first
    character of [s]. *)
Fixpoint endsWith (s suffix : string) : bool :=
  bool_decide (s = suffix)
  || match s with
     | EmptyString => false
     | String _ s' => endsWith s' suffix
     end.

(** [s.split(sep)] for a separator of one character: never the empty list. *)
Fixpoint split (sep : ascii) (s : string) : list string :=
  match s with
  | EmptyString => [EmptyString]
  | String c s' =>
      if decide (c = sep) then EmptyString :: split sep s'
      else match split sep s' with
           | x :: xs => String c x :: xs
           | [] => [String c EmptyString]
           end
  end.

(** [files.sort()]: without a comparator the elements are ordered by their
    code units.  On a total antisymmetric order the sorted permutation is
    unique, so the algorithm the engine uses does not matter. *)
Definition sort (files : list string) : list string :=
  merge_sort String.le files.

(** [String(n)] for a non-negative integer: decimal digits, no leading zero. *)
Definition digit (d : N) : ascii := ascii_of_N (48 + d).

Fixpoint digits (fuel : nat) (n : N) (acc : string) : string :=
  let acc' := String (digit (n mod 10)) acc in
  match fuel with
  | O => acc'
  | S fuel' => if n <? 10 then acc' else digits fuel' (n / 10) acc'
  end.

Definition number_to_string (n : N) : string :=
  digits (N.to_nat (N.log2 n)) n EmptyString.

(** The [w] lowest decimal digits of [n], in front of [acc]. *)
Fixpoint fixed_digits (w : nat) (n : N) (acc : string) : string :=
  match w with
  | O => acc
  | S w' => fixed_digits w' (n / 10) (String (digit (n mod 10)) acc)
  end.

(** The [filename] callback of the multer storage:
    [`${Date.now()}-${file.originalname}`] *)
Definition filename (now : N) (originalname : string) : string :=
  number_to_string now +:+ "-" +:+ originalname.

(** A chunk as one call of [POST /upload/:videoId] stores it: the clock at
    its arrival, the file name the client gave, the bytes. *)
Record chunk := { arrived : N; originalname : string; content : list Byte.byte }.

Definition chunk_file (c : chunk) : string :=
  filename (arrived c) (originalname c).

(** Ascending numeric timestamp order. *)
Definition earlier : relation chunk := λ a b, arrived a ≤ arrived b.

Global Instance earlier_dec : RelDecision earlier.
Proof. intros a b. unfold earlier. apply _. Defined.

Definition by_timestamp (chunks : list chunk) : list chunk :=
  merge_sort earlier chunks.

(** Chunks whose timestamps have the same number of digits. *)
Definition same_width (k : nat) (c : chunk) : Prop :=
  10 ^ N.of_nat k ≤ arrived c ∧ arrived c < 10 ^ N.of_nat (S k).

(** ** Errors and the exception monad *)

Inductive errno := ENOENT | ENOTDIR | EISDIR | ENOTEMPTY | EEXIST | EBUSY.

Inductive error :=
  | FsError (code : errno) (path : list string)
  | CastError (path : string)
  | TypeError
  | DuplicateKey
  | ImmutableField
  | DocumentNotFound
  | CloudError (msg : string).

Inductive result (A : Type) :=
  | Ok (a : A)
  | Throw (e : error).
Arguments Ok {A} a.
Arguments Throw {A} e.

Global Instance result_ret : MRet result := λ A a, Ok a.
Global Instance result_bind : MBind result := λ A B k r,
  match r with
  | Ok a => k a
  | Throw e => Throw e
  end.

(** ** Paths: [path.join] *)

Record jpath := { segs : list string; trailing : bool }.

(** The segment loop of [normalizeString] for an absolute path; [stack] holds
    the segments kept so far, last one first. *)
Fixpoint normalize (stack : list string) (parts : list string) : list string :=
  match parts with
  | [] => rev stack
  | part :: rest =>
      if decide (part = "" ∨ part = ".") then normalize stack rest
      else if decide (part = "..") then normalize (tail stack) rest
      else normalize (part :: stack) rest
  end.

(** A name that [path.join] appends as it is: one segment, not empty and
    neither [.] nor [..]. *)
Definition plain (name : string) : Prop :=
  name ≠ "" ∧ name ≠ "." ∧ name ≠ ".." ∧ split "/" name = [name].

Global Instance plain_dec name : Decision (plain name).
Proof. unfold plain. apply _. Defined.

(** [path.join(base, ...args)] where [base] is an absolute path that is
    already normalised ([__dirname], or the result of an earlier join):
    arguments of length zero are skipped, the rest is glued with [/] and
    normalised; a slash at the very end is kept. *)
Definition path_join (base : jpath) (args : list string) : jpath :=
  let args' := filter (λ a, a ≠ "") args in
  {| segs := normalize (rev (segs base)) (mjoin (split "/" <$> args'));
     trailing := match last args' with
                 | Some a => endsWith a "/"
                 | None => trailing base
                 end |}.

(** ** The local file system *)

Inductive node :=
  | File (data : list Byte.byte)
  | Dir.

(** A path given by its segments from the root is bound to a node. *)
Abbreviation fs := (gmap (list string) node).

Definition stat (d : fs) (p : jpath) : result node :=
  match d !! segs p with
  | Some (File data) =>
      if trailing p then Throw (FsError ENOTDIR (segs p)) else Ok (File data)
  | Some Dir => Ok Dir
  | None => Throw (FsError ENOENT (segs p))
  end.

Definition existsSync (d : fs) (p : jpath) : bool :=
  match stat d p with Ok _ => true | Throw _ => false end.

(** The name of [key] when it is a direct child of [dir]. *)
Definition child_of (dir key : list string) : option string :=
  match key !! length dir with
  | Some name => if decide (key = dir ++ [name]) then Some name else None
  | None => None
  end.

Definition children (d : fs) (dir : list string) : list string :=
  omap (child_of dir) (map_to_list d).*1.

Definition readdirSync (d : fs) (p : jpath) : result (list string) :=
  match d !! segs p with
  | Some Dir => Ok (children d (segs p))
  | Some (File _) => Throw (FsError ENOTDIR (segs p))
  | None => Throw (FsError ENOENT (segs p))
  end.

Definition readFileSync (d : fs) (p : jpath) : result (list Byte.byte) :=
  n ← stat d p;
  match n with
  | File data => Ok data
  | Dir => Throw (FsError EISDIR (segs p))
  end.

Definition unlinkSync (d : fs) (p : jpath) : result fs :=
  n ← stat d p;
  match n with
  | File _ => Ok (delete (segs p) d)
  | Dir => Throw (FsError EISDIR (segs p))
  end.

Definition rmdirSync (d : fs) (p : jpath) : result fs :=
  n ← stat d p;
  match n with
  | File _ => Throw (FsError ENOTDIR (segs p))
  | Dir =>
      if decide (segs p = []) then Throw (FsError EBUSY (segs p))
      else if decide (children d (segs p) = []) then Ok (delete (segs p) d)
      else Throw (FsError ENOTEMPTY (segs p))
  end.

(** [fs.mkdirSync(p, { recursive: true })]: walks down from the root and
    creates what is missing; a regular file on the way is an error. *)
Fixpoint mkdir_from (d : fs) (done : list string) (todo : list string) : result fs :=
  match todo with
  | [] => Ok d
  | s :: todo' =>
      let here := done ++ [s] in
      match d !! here with
      | Some Dir => mkdir_from d here todo'
      | Some (File _) =>
          Throw (FsError (match todo' with [] => EEXIST | _ => ENOTDIR end) here)
      | None => mkdir_from (<[here := Dir]> d) here todo'
      end
  end.

Definition mkdirSync_recursive (d : fs) (p : jpath) : result fs :=
  match d !! [] with
  | Some (File _) => Throw (FsError ENOTDIR [])
  | _ => mkdir_from d [] (segs p)
  end.

(** Opening [p] for writing ([flags: 'w']), writing [data] and closing: the
    parent has to be a directory and [p] itself must not be one. *)
Definition write_file (d : fs) (p : jpath) (data : list Byte.byte) : result fs :=
  if trailing p then Throw (FsError EISDIR (segs p)) else
  match segs p with
  | [] => Throw (FsError EISDIR [])
  | _ =>
      match d !! removelast (segs p) with
      | Some Dir =>
          match d !! segs p with
          | Some Dir => Throw (FsError EISDIR (segs p))
          | _ => Ok (<[segs p := File data]> d)
          end
      | Some (File _) => Throw (FsError ENOTDIR (segs p))
      | None => Throw (FsError ENOENT (segs p))
      end
  end.

(** ** JSON values, the collection and Mongoose documents *)

Local Unset Elimination Schemes.
Inductive jvalue :=
  | JNull
  | JBool (b : bool)
  | JNum (z : Z)
  | JStr (s : string)
  | JArr (items : list jvalue)
  | JObj (members : list (string * jvalue)).
Local Set Elimination Schemes.

(** [if (v)] on a JSON value. *)
Definition truthy (v : jvalue) : bool :=
  match v with
  | JNull => false
  | JBool b => b
  | JNum z => bool_decide (z ≠ 0%Z)
  | JStr s => bool_decide (s ≠ "")
  | JArr _ | JObj _ => true
  end.

(** The paths that [DoctorSchema] declares, all of type String. *)
Definition DoctorSchema : list string :=
  ["name"; "designation"; "degree"; "mobile"; "email"; "videoId"].

(** What the libraries around the handlers decide: the directory of the
    script, the email rule of Joi, and the casts that Mongoose applies to a
    value bound for a String path or for [_id] ([None]: the cast fails). *)
Class Collaborators := {
  dirname : list string;
  valid_email : string → bool;
  cast_string : jvalue → option jvalue;
  cast_object_id : jvalue → option string;
  cast_string_JStr : ∀ s, cast_string (JStr s) = Some (JStr s);
}.

(** The collection: the stored fields of each document under its [_id]. *)
Abbreviation collection := (gmap string (gmap string jvalue)).

(** A Mongoose document in memory: the fields it was built or loaded with
    ([_doc]), the schema paths set since then, the plain JavaScript
    properties put on the object that are no schema path, and the cast error
    that [save] will report. *)
Record document := {
  doc_id : string;
  doc_fields : gmap string jvalue;
  doc_modified : list string;
  doc_props : gmap string jvalue;
  doc_isNew : bool;
  doc_invalid : option error;
}.

Inductive joi_error :=
  | any_required (key : string)
  | string_base (key : string)
  | string_empty (key : string)
  | string_email (key : string).

Inductive log_entry :=
  | console_error (label : string) (e : error)
  | console_log (text : string).

Record world := {
  disk : fs;
  doctors : gmap string (gmap string jvalue);
  console : list log_entry;
}.

Definition with_disk (d : fs) (w : world) : world :=
  {| disk := d; doctors := doctors w; console := console w |}.
Definition with_doctors (c : collection) (w : world) : world :=
  {| disk := disk w; doctors := c; console := console w |}.
Definition logged (entry : log_entry) (w : world) : world :=
  {| disk := disk w; doctors := doctors w; console := console w ++ [entry] |}.

(** The JSON bodies the handlers send. *)
Inductive body :=
  | Message (message : string)
  | ServerError (e : error)
  | ValidationMessage (e : joi_error)
  | DoctorJson (doctor : option (string * gmap string jvalue))
  | VideoFile (message : string) (filePath : jpath)
  | VideoUrl (message : string) (filePath : string).

Record response := { status : nat; json : body }.

Section Handlers.
Context {C : Collaborators}.

(** *** Joi *)

(** [Joi.string().required()] on the member [key], then [rule] on the string *)
Definition string_required (key : string) (rule : string → bool)
    (err : joi_error) (obj : gmap string jvalue) : option joi_error :=
  match obj !! key with
  | None => Some (any_required key)
  | Some (JStr s) =>
      if decide (s = "") then Some (string_empty key)
      else if rule s then None else Some err
  | Some _ => Some (string_base key)
  end.

(** [doctorValidationSchema.validate(req.body).error]: the keys are checked in
    the order of the schema and the first error is reported; unknown keys
    are allowed. *)
Definition doctorValidationSchema (obj : gmap string jvalue) : option joi_error :=
  match string_required "name" (λ _, true) (string_base "name") obj with
  | Some e => Some e
  | None => string_required "email" valid_email (string_email "email") obj
  end.

(** *** Mongoose *)

(** Strict mode: of an object only the declared paths are taken, each one
    cast to String. *)
Definition cast_fields (obj : gmap string jvalue) : result (gmap string jvalue) :=
  foldr (λ p acc,
           m ← acc;
           match obj !! p with
           | None => Ok m
           | Some v =>
               match cast_string v with
               | Some v' => Ok (<[p := v']> m)
               | None => Throw (CastError p)
               end
           end) (Ok ∅) DoctorSchema.

Definition cast_id (obj : gmap string jvalue) : result (option string) :=
  match obj !! "_id" with
  | None => Ok None
  | Some v =>
      match cast_object_id v with
      | Some i => Ok (Some i)
      | None => Throw (CastError "_id")
      end
  end.

(** [new Doctor(obj)]; [fresh_id] is the ObjectId generated when [obj] brings
    no [_id]. *)
Definition new_Doctor (obj : gmap string jvalue) (fresh_id : string) : document :=
  match cast_id obj, cast_fields obj with
  | Ok i, Ok m =>
      {| doc_id := default fresh_id i; doc_fields := m; doc_modified := [];
         doc_props := ∅; doc_isNew := true; doc_invalid := None |}
  | Throw e, _ | _, Throw e =>
      {| doc_id := fresh_id; doc_fields := ∅; doc_modified := [];
         doc_props := ∅; doc_isNew := true; doc_invalid := Some e |}
  end.

(** A document loaded from the collection. *)
Definition hydrate (id : string) (stored : gmap string jvalue) : document :=
  {| doc_id := id; doc_fields := stored; doc_modified := [];
     doc_props := ∅; doc_isNew := false; doc_invalid := None |}.

(** [doctor.key]: the getter of a schema path reads [_doc]; any other name
    is a plain property of the object. *)
Definition doc_get (doctor : document) (key : string) : option jvalue :=
  if decide (key ∈ DoctorSchema) then doc_fields doctor !! key
  else doc_props doctor !! key.

(** [doctor.key = v]: only the setter of a schema path changes [_doc] and
    marks the path as modified. *)
Definition doc_set (doctor : document) (key : string) (v : jvalue) : document :=
  if decide (key ∈ DoctorSchema) then
    match cast_string v with
    | Some v' =>
        {| doc_id := doc_id doctor; doc_fields := <[key := v']> (doc_fields doctor);
           doc_modified := key :: doc_modified doctor; doc_props := doc_props doctor;
           doc_isNew := doc_isNew doctor; doc_invalid := doc_invalid doctor |}
    | None =>
        {| doc_id := doc_id doctor; doc_fields := doc_fields doctor;
           doc_modified := doc_modified doctor; doc_props := doc_props doctor;
           doc_isNew := doc_isNew doctor; doc_invalid := Some (CastError key) |}
    end
  else
    {| doc_id := doc_id doctor; doc_fields := doc_fields doctor;
       doc_modified := doc_modified doctor; doc_props := <[key := v]> (doc_props doctor);
       doc_isNew := doc_isNew doctor; doc_invalid := doc_invalid doctor |}.

(** [doctor.save()]: a new document is inserted; of a loaded one the modified
    paths are written back, and nothing is sent when there is none. *)
Definition save (doctor : document) (c : collection) : result collection :=
  match doc_invalid doctor with
  | Some e => Throw e
  | None =>
      if doc_isNew doctor then
        match c !! doc_id doctor with
        | Some _ => Throw DuplicateKey
        | None => Ok (<[doc_id doctor := doc_fields doctor]> c)
        end
      else
        match doc_modified doctor with
        | [] => Ok c
        | paths =>
            match c !! doc_id doctor with
            | None => Throw DocumentNotFound
            | Some stored =>
                Ok (<[doc_id doctor :=
                        foldr (λ p m, match doc_fields doctor !! p with
                                      | Some v => <[p := v]> m
                                      | None => delete p m
                                      end) stored paths]> c)
            end
        end
  end.

(** [res.json(doctor)]: [_id] and the fields of [_doc]. *)
Definition toJSON (doctor : document) : string * gmap string jvalue :=
  (doc_id doctor, doc_fields doctor).

(** [Doctor.findByIdAndUpdate(id, update, { new: true })] *)
Definition findByIdAndUpdate (id : string) (update : gmap string jvalue)
    (c : collection) : result (option document * collection) :=
  match cast_object_id (JStr id) with
  | None => Throw (CastError "_id")
  | Some oid =>
      set ← cast_fields update;
      new_id ← cast_id update;
      match c !! oid with
      | None => Ok (None, c)
      | Some stored =>
          if decide (default oid new_id = oid) then
            let stored' := set ∪ stored in
            Ok (Some (hydrate oid stored'), <[oid := stored']> c)
          else Throw ImmutableField
      end
  end.

(** [Doctor.findByIdAndDelete(id)] *)
Definition findByIdAndDelete (id : string) (c : collection)
    : result (option document * collection) :=
  match cast_object_id (JStr id) with
  | None => Throw (CastError "_id")
  | Some oid =>
      match c !! oid with
      | None => Ok (None, c)
      | Some stored => Ok (Some (hydrate oid stored), delete oid c)
      end
  end.

(** [Doctor.findOne({ videoId })] *)
Definition has_videoId (videoId : string) (entry : string * gmap string jvalue) : bool :=
  match entry.2 !! "videoId" with
  | Some (JStr s) => bool_decide (s = videoId)
  | _ => false
  end.

Definition findOne_videoId (videoId : string) (c : collection) : option document :=
  match filter (λ e, has_videoId videoId e = true) (map_to_list c) with
  | (id, stored) :: _ => Some (hydrate id stored)
  | [] => None
  end.

(** *** Shared pieces of the handlers *)

Definition respond (code : nat) (b : body) : option response :=
  Some {| status := code; json := b |}.

Definition app_dir : jpath := {| segs := dirname; trailing := false |}.

(** [path.join(__dirname, 'videos', videoId)] *)
Definition videoDir_of (videoId : string) : jpath :=
  path_join app_dir ["videos"; videoId].

(** [for (const file of files) fs.unlinkSync(path.join(videoDir, file))]:
    what was removed before an exception stays removed. *)
Fixpoint unlink_each (d : fs) (videoDir : jpath) (files : list string)
    : fs * option error :=
  match files with
  | [] => (d, None)
  | file :: rest =>
      match unlinkSync d (path_join videoDir [file]) with
      | Ok d' => unlink_each d' videoDir rest
      | Throw e => (d, Some e)
      end
  end.

(** The body of [if (fs.existsSync(videoDir)) { ... }] in both delete
    handlers: list the directory, unlink every entry, remove the directory. *)
Definition remove_video_dir (d : fs) (videoDir : jpath) : fs * option error :=
  match readdirSync d videoDir with
  | Throw e => (d, Some e)
  | Ok files =>
      match unlink_each d videoDir files with
      | (d', Some e) => (d', Some e)
      | (d', None) =>
          match rmdirSync d' videoDir with
          | Ok d'' => (d'', None)
          | Throw e => (d', Some e)
          end
      end
  end.

(** [fs.readdirSync(videoDir).filter(file => file.endsWith('.webm'))] followed
    by [files.sort()] *)
Definition webm_files (d : fs) (videoDir : jpath) : result (list string) :=
  names ← readdirSync d videoDir;
  Ok (sort (filter (λ file, endsWith file ".webm" = true) names)).

(** The loop that reads every chunk and hands it to [writeStream.write]:
    the buffers written so far, and the exception that stopped the loop. *)
Fixpoint write_chunks (d : fs) (videoDir : jpath) (files : list string)
    (written : list (list Byte.byte)) : list (list Byte.byte) * option error :=
  match files with
  | [] => (written, None)
  | file :: rest =>
      match readFileSync d (path_join videoDir [file]) with
      | Ok data => write_chunks d videoDir rest (written ++ [data])
      | Throw e => (written, Some e)
      end
  end.

(** What both finalize handlers do up to [writeStream.end()] and until the
    stream has settled. *)
Inductive joined :=
  | NoChunks
  | Failed (e : error) (d : fs)
  | StreamError (e : error)
  | Finished (d : fs).

Definition join_chunks (d : fs) (videoDir outputFilePath : jpath) : joined :=
  match webm_files d videoDir with
  | Throw e => Failed e d
  | Ok files =>
      if decide (length files = 0%nat) then NoChunks
      else
        match write_chunks d videoDir files [] with
        | (written, Some e) =>
            (* the stream was created before the loop: it still opens its
               file and flushes what was written to it *)
            match write_file d outputFilePath (mjoin written) with
            | Ok d' => Failed e d'
            | Throw _ => Failed e d
            end
        | (written, None) =>
            match write_file d outputFilePath (mjoin written) with
            | Ok d' => Finished d'
            | Throw e => StreamError e
            end
        end
  end.

(** *** Routes that the two files share *)

(** [POST /doctors] *)
Definition post_doctors (req_body : gmap string jvalue) (uuid fresh_id : string)
    (w : world) : option response * world :=
  match doctorValidationSchema req_body with
  | Some e => (respond 400 (ValidationMessage e), w)
  | None =>
      let doctor := new_Doctor (<["videoId" := JStr uuid]> req_body) fresh_id in
      match save doctor (doctors w) with
      | Throw _ => (None, w)
      | Ok c => (respond 201 (DoctorJson (Some (toJSON doctor))), with_doctors c w)
      end
  end.

(** [PUT /doctors/:id] *)
Definition put_doctors (id : string) (req_body : gmap string jvalue)
    (w : world) : option response * world :=
  match doctorValidationSchema req_body with
  | Some e => (respond 400 (ValidationMessage e), w)
  | None =>
      match findByIdAndUpdate id req_body (doctors w) with
      | Throw _ => (None, w)
      | Ok (doctor, c) =>
          (respond 200 (DoctorJson (toJSON <$> doctor)), with_doctors c w)
      end
  end.

(** [POST /upload/:videoId] behind [upload.single('video')]: multer asks
    [destination] and [filename] and stores the part under their join; when
    that fails the route handler is not reached. *)
Definition post_upload (videoId : string)
    (file : option (string * list Byte.byte)) (now : N)
    (w : world) : option response * world :=
  match file with
  | None => (respond 200 (Message "Video chunk uploaded successfully"), w)
  | Some (originalname, data) =>
      let videoDir := videoDir_of videoId in
      match (if existsSync (disk w) videoDir then Ok (disk w)
             else mkdirSync_recursive (disk w) videoDir) with
      | Throw _ => (None, w)
      | Ok d =>
          match write_file d (path_join videoDir [filename now originalname]) data with
          | Throw _ => (None, with_disk d w)
          | Ok d' =>
              (respond 200 (Message "Video chunk uploaded successfully"),
               with_disk d' w)
          end
      end
  end.

(** [DELETE /deleteVideo/:videoId] *)
Definition delete_deleteVideo (videoId : string) (w : world)
    : option response * world :=
  let videoDir := videoDir_of videoId in
  if existsSync (disk w) videoDir then
    match remove_video_dir (disk w) videoDir with
    | (d, Some e) =>
        (respond 500 (ServerError e),
         logged (console_error "Error deleting video files:" e) (with_disk d w))
    | (d, None) =>
        (respond 200 (Message "All video files deleted successfully"), with_disk d w)
    end
  else (respond 200 (Message "All video files deleted successfully"), w).

End Handlers.

(** ** [process.env], CORS and the list of doctors *)

(** The two URLs that the handlers read from [process.env]; a variable that
    is not set is [undefined], here [None]. *)
Class Environment := {
  FRONT_END_URL : option string;
  BACK_END_URL : option string;
}.

(** [`${v}`] for a variable of the environment *)
Definition template (v : option string) : string := default "undefined" v.

(** [const allowedOrigins = [process.env.FRONT_END_URL]] *)
Definition allowedOrigins {E : Environment} : list (option string) :=
  [FRONT_END_URL].

(** The [origin] function handed to [cors]; [origin] is [None] for a request
    without Origin header.  [true] is [callback(null, true)], [false] is
    [callback(new Error('Not allowed by CORS'))]. *)
Definition cors_origin {E : Environment} (origin : option string) : bool :=
  match origin with
  | None => true
  | Some o => bool_decide (o = "") || bool_decide (Some o ∈ allowedOrigins)
  end.

(** One element of the array that [GET /doctors] sends: [doctor.toObject()]
    with its [videoUrl], [None] for [null]. *)
Record listed := {
  listed_id : string;
  listed_fields : gmap string jvalue;
  videoUrl : option string;
}.

(** The answer of [GET /doctors]: 200 with the array, or 500. *)
Inductive listing :=
  | Listed (updatedDoctors : list listed)
  | ListFailed (e : error).

(** ** Variant B: [src/server.js], the merged file stays on the disk *)

Module VariantB.
Section Routes.
Context {C : Collaborators}.

(** [DELETE /doctors/:id] *)
Definition delete_doctors (id : string) (w : world) : option response * world :=
  match findByIdAndDelete id (doctors w) with
  | Throw e =>
      (respond 500 (ServerError e), logged (console_error "Error deleting doctor:" e) w)
  | Ok (None, _) => (respond 404 (Message "Doctor not found"), w)
  | Ok (Some doctor, c) =>
      let w1 := with_doctors c w in
      match doc_get doctor "videoId" with
      | Some (JStr videoId) =>
          let videoDir := videoDir_of videoId in
          if existsSync (disk w1) videoDir then
            match remove_video_dir (disk w1) videoDir with
            | (d, Some e) =>
                (respond 500 (ServerError e),
                 logged (console_error "Error deleting doctor:" e) (with_disk d w1))
            | (d, None) =>
                (respond 200 (Message "Doctor and related video files deleted successfully"),
                 with_disk d w1)
            end
          else
            (respond 200 (Message "Doctor and related video files deleted successfully"),
             logged (console_log "no dir") w1)
      | _ =>
          (* [path.join] refuses an argument that is no string *)
          (respond 500 (ServerError TypeError),
           logged (console_error "Error deleting doctor:" TypeError) w1)
      end
  end.

(** [POST /finishUpload/:videoId] *)
Definition post_finishUpload (videoId : string) (w : world)
    : option response * world :=
  let videoDir := videoDir_of videoId in
  let outputFilePath := path_join videoDir ["final_video.webm"] in
  match join_chunks (disk w) videoDir outputFilePath with
  | NoChunks => (respond 400 (Message "No video chunks found"), w)
  | Failed e d =>
      (respond 500 (ServerError e),
       logged (console_error "Error finalizing video upload:" e) (with_disk d w))
  | StreamError e =>
      (respond 500 (ServerError e),
       logged (console_error "Error joining video chunks:" e) w)
  | Finished d =>
      (respond 200 (VideoFile "Video file created successfully" outputFilePath),
       with_disk d w)
  end.

(** The callback of [doctors.map] in [GET /doctors]: [path.join] throws on a
    [videoId] that is no string. *)
Definition updated_doctor {E : Environment} (d : fs)
    (entry : string * gmap string jvalue) : result listed :=
  let doctor := hydrate entry.1 entry.2 in
  match doc_get doctor "videoId" with
  | Some (JStr videoId) =>
      let videoDir := videoDir_of videoId in
      let videoFilePath := path_join videoDir ["final_video.webm"] in
      Ok {| listed_id := doc_id doctor;
            listed_fields := doc_fields doctor;
            videoUrl :=
              if existsSync d videoFilePath
              then Some (template BACK_END_URL +:+ "/videos/" +:+ videoId
                         +:+ "/final_video.webm")
              else None |}
  | _ => Throw TypeError
  end.

(** [GET /doctors] *)
Definition get_doctors {E : Environment} (w : world) : listing * world :=
  match mapM (updated_doctor (disk w)) (map_to_list (doctors w)) with
  | Ok updatedDoctors => (Listed updatedDoctors, w)
  | Throw e => (ListFailed e, logged (console_error "Error fetching doctors:" e) w)
  end.

End Routes.
End VariantB.

(** ** Variant A: [src/unnamed/part_000], the merged file goes to Cloudinary *)

Module VariantA.
Section Routes.
Context {C : Collaborators}.

(** [doctor.videoUrl.split('/').pop().split('.')[0]] *)
Definition publicId_of (videoUrl : string) : string :=
  default "" (head (split "." (default "" (last (split "/" videoUrl))))).

(** [DELETE /doctors/:id]; [destroy publicId] is the error, if any, that
    [cloudinary.uploader.destroy] hands to its callback. *)
Definition delete_doctors (id : string) (destroy : string → option error)
    (w : world) : option response * world :=
  match findByIdAndDelete id (doctors w) with
  | Throw e =>
      (respond 500 (ServerError e), logged (console_error "Error deleting doctor:" e) w)
  | Ok (None, _) => (respond 404 (Message "Doctor not found"), w)
  | Ok (Some doctor, c) =>
      let w1 := with_doctors c w in
      match doc_get doctor "videoUrl" with
      | Some (JStr videoUrl) =>
          if truthy (JStr videoUrl) then
            match destroy (publicId_of videoUrl) with
            | Some e =>
                (respond 500 (ServerError e),
                 logged (console_error "Error deleting video:" e) w1)
            | None =>
                (respond 200 (Message "Doctor and related video files deleted successfully"), w1)
            end
          else
            (respond 200 (Message "Doctor and related video files deleted successfully"), w1)
      | Some v =>
          if truthy v then
            (* [split] is no function of a value that is no string *)
            (respond 500 (ServerError TypeError),
             logged (console_error "Error deleting doctor:" TypeError) w1)
          else
            (respond 200 (Message "Doctor and related video files deleted successfully"), w1)
      | None =>
          (respond 200 (Message "Doctor and related video files deleted successfully"), w1)
      end
  end.

(** The ['finish'] listener of the write stream; [upload_reply] is what
    [cloudinary.uploader.upload] resolves to ([secure_url]) or rejects with.
    The request itself (the public id and the caption with the name of the
    doctor) stays with Cloudinary and is not modelled. *)
Definition on_finish (videoId : string) (outputFilePath : jpath)
    (upload_reply : result string) (w : world) : option response * world :=
  let failed e w' :=
    (respond 500 (ServerError e),
     logged (console_error "Error uploading final video:" e) w') in
  let doctor := findOne_videoId videoId (doctors w) in
  match upload_reply with
  | Throw e => failed e w
  | Ok secure_url =>
      match unlinkSync (disk w) outputFilePath with
      | Throw e => failed e w
      | Ok d =>
          let w1 := with_disk d w in
          match doctor with
          | None => failed TypeError w1
          | Some doctor =>
              let doctor := doc_set doctor "videoUrl" (JStr secure_url) in
              match save doctor (doctors w1) with
              | Throw e => failed e w1
              | Ok c =>
                  (respond 200 (VideoUrl "Video file created successfully" secure_url),
                   with_doctors c w1)
              end
          end
      end
  end.

(** [POST /finishUpload/:videoId] *)
Definition post_finishUpload (videoId : string) (upload_reply : result string)
    (w : world) : option response * world :=
  let videoDir := videoDir_of videoId in
  let outputFilePath := path_join videoDir [videoId +:+ ".webm"] in
  match join_chunks (disk w) videoDir outputFilePath with
  | NoChunks => (respond 400 (Message "No video chunks found"), w)
  | Failed e d =>
      (respond 500 (ServerError e),
       logged (console_error "Error finalizing video upload:" e) (with_disk d w))
  | StreamError e =>
      (respond 500 (ServerError e),
       logged (console_error "Error joining video chunks:" e) w)
  | Finished d => on_finish videoId outputFilePath upload_reply (with_disk d w)
  end.

(** [GET /doctors]; [resource videoId] is what [cloudinary.api.resource]
    resolves to (its [secure_url]) or rejects with for the public id built
    from [doctor.videoId].  The [catch] around each lookup turns a rejection
    into [videoUrl: null]. *)
Definition get_doctors (resource : option jvalue → result string) (w : world)
    : listing * world :=
  (Listed ((λ entry : string * gmap string jvalue,
              let doctor := hydrate entry.1 entry.2 in
              {| listed_id := doc_id doctor;
                 listed_fields := doc_fields doctor;
                 videoUrl := match resource (doc_get doctor "videoId") with
                             | Ok secure_url => Some secure_url
                             | Throw _ => None
                             end |}) <$> map_to_list (doctors w)), w).

End Routes.
End VariantA.

(** ** Sessions and auxiliary notions *)


(** Reading a file name back: the number that its leading decimal digits
    spell after [v], and what follows them. *)
Fixpoint leading_number (s : string) (v : N) : N * string :=
  match s with
  | EmptyString => (v, EmptyString)
  | String c s' =>
      let code := N_of_ascii c in
      if decide (48 ≤ code ∧ code < 58) then leading_number s' (10 * v + (code - 48))
      else (v, s)
  end.

(** A name without [/]. *)
Definition no_slash (name : string) : Prop := split "/" name = [name].


(** ** A deployment to run the handlers on *)

Definition plain_email (s : string) : bool :=
  match split "@" s with
  | [name; domain] =>
      bool_decide (name ≠ "" ∧ (2 ≤ length (split "." domain))%nat
                   ∧ Forall (λ part, part ≠ "") (split "." domain))
  | _ => false
  end.

Definition demo : Collaborators := {|
  dirname := ["srv"; "app"];
  valid_email := plain_email;
  cast_string v := match v with
                   | JStr s => Some (JStr s)
                   | JNull => Some JNull
                   | _ => None
                   end;
  cast_object_id v := match v with
                      | JStr s => if decide (String.length s = 24%nat) then Some s else None
                      | _ => None
                      end;
  cast_string_JStr s := eq_refl;
|}.

Definition bytes_of (s : string) : list Byte.byte := String.list_byte_of_string s.

(** The application directory exists, [videos] does not yet. *)
Definition disk0 : fs := {[ [] := Dir; ["srv"] := Dir; ["srv"; "app"] := Dir ]}.
Definition world0 : world := {| disk := disk0; doctors := ∅; console := [] |}.

Definition alice : gmap string jvalue :=
  {[ "name" := JStr "Alice"; "email" := JStr "a@x.com" ]}.
Definition alice_videoId : string := "123e4567-e89b-42d3-a456-426614174000".
Definition alice_id : string := "65a4f0c2b7e1d9a3c5f80001".

Definition alice_stored : gmap string jvalue :=
  <["videoId" := JStr alice_videoId]> alice.

(** Alice is created, then her three chunks arrive as a, b, c. *)
Definition world_alice : world :=
  (post_doctors (C := demo) alice alice_videoId alice_id world0).2.

Definition chunk_a : chunk :=
  {| arrived := 1700000000000; originalname := "a.webm"; content := bytes_of "first" |}.
Definition chunk_b : chunk :=
  {| arrived := 1700000000050; originalname := "b.webm"; content := bytes_of "third" |}.
Definition chunk_c : chunk :=
  {| arrived := 1700000000010; originalname := "c.webm"; content := bytes_of "second" |}.

Definition upload_chunk (videoId : string) (c : chunk) (w : world) : world :=
  (post_upload (C := demo) videoId (Some (originalname c, content c)) (arrived c) w).2.

Definition world_uploaded : world :=
  upload_chunk alice_videoId chunk_c
    (upload_chunk alice_videoId chunk_b
       (upload_chunk alice_videoId chunk_a world_alice)).

(** A directory that holds one file that is no chunk. *)
Definition world_notes : world :=
  (post_upload (C := demo) alice_videoId (Some ("notes.txt", bytes_of "n"))
     1700000000000 world_alice).2.

(** A client has uploaded under [<videoId>/sub]: Alice's directory holds a
    directory. *)
Definition world_nested : world :=
  upload_chunk (alice_videoId +:+ "/sub") chunk_a world_alice.

(** After the finalize of variant B, and after somebody has then removed
    the three chunks. *)
Definition world_finalized : world :=
  (VariantB.post_finishUpload (C := demo) alice_videoId world_uploaded).2.

Definition world_chunks_gone : world :=
  with_disk
    (foldr (λ c d, delete (segs (path_join (videoDir_of (C := demo) alice_videoId)
                                   [chunk_file c])) d)
           (disk world_finalized) [chunk_a; chunk_b; chunk_c])
    world_finalized.

(** Cloudinary answers with the URL of Alice's video. *)
Definition alice_url : string :=
  "https://res.cloudinary.com/demo/video/upload/v1/final_video.webm".



(** The environment of the deployment. *)
Definition demo_env : Environment := {|
  FRONT_END_URL := Some "https://doctors.example";
  BACK_END_URL := Some "https://api.doctors.example";
|}.

(** An identifier that no document has. *)
Definition bob_id : string := "65a4f0c2b7e1d9a3c5f80002".

(** Payloads: one without a name, one that is valid without Alice's
    members, one that renames Alice and sends a [videoId] of its own, one
    that sends [null] for the [videoId]. *)
Definition only_email : gmap string jvalue := {[ "email" := JStr "a@x.com" ]}.

Definition age_only : gmap string jvalue := {[ "age" := JStr "41" ]}.


Definition alice_null_videoId : gmap string jvalue := <["videoId" := JNull]> alice.

Definition world_null_videoId : world :=
  (put_doctors (C := demo) alice_id alice_null_videoId world_alice).2.

(** Alice's first chunk has arrived. *)
Definition world_first_chunk : world := upload_chunk alice_videoId chunk_a world_alice.

(** Among Alice's three chunks there is a directory whose name ends in
    [.webm]. *)
Definition world_dir_chunk : world :=
  with_disk (<[segs (videoDir_of (C := demo) alice_videoId) ++ ["1700000000020-d.webm"]
               := Dir]> (disk world_uploaded)) world_uploaded.

(** Two chunks under a videoId that no doctor has. *)
Definition world_bob_chunks : world :=
  upload_chunk "bob" chunk_c (upload_chunk "bob" chunk_a world_alice).

(** * Properties *)

(** Splits an equation between two outcomes of a handler. *)
Ltac outcome := unfold respond in *; simplify_eq/=.

(** Runs the model on closed terms. *)
Ltac evaluate := vm_compute; reflexivity.

(** An outcome is known once the response is: the world is its second
    component. *)
Lemma outcome_eq {A B} (p : A * B) (a : A) : p.1 = a → p = (a, p.2).
Proof. destruct p. simpl. by intros ->. Qed.

(** ** Decimal rendering and the order of file names *)

Lemma digit_code d : d < 10 → N_of_ascii (digit d) = 48 + d.
Proof.
  intros Hd. unfold digit. apply N_ascii_embedding. lia.
Qed.

Lemma digit_compare a b :
  a < 10 → b < 10 → Ascii.compare (digit a) (digit b) = (a ?= b).
Proof.
  intros Ha Hb. unfold Ascii.compare. rewrite !digit_code by done.
  destruct (N.compare_spec a b) as [->|?|?].
  - apply N.compare_refl.
  - apply N.compare_lt_iff. lia.
  - apply N.compare_gt_iff. lia.
Qed.

Lemma string_compare_refl s : String.compare s s = Eq.
Proof.
  induction s as [|c s IH]; simpl; [done|].
  unfold Ascii.compare. by rewrite N.compare_refl.
Qed.

Lemma string_app_assoc (s1 s2 s3 : string) :
  (s1 +:+ s2) +:+ s3 = s1 +:+ (s2 +:+ s3).
Proof.
  induction s1 as [|c s1 IH]; [done|].
  change (String c ((s1 +:+ s2) +:+ s3) = String c (s1 +:+ (s2 +:+ s3))).
  by rewrite IH.
Qed.

Lemma fixed_digits_app w n acc :
  fixed_digits w n acc = fixed_digits w n "" +:+ acc.
Proof.
  revert n acc. induction w as [|w IH]; intros n acc; simpl; [done|].
  rewrite (IH _ (String _ acc)), (IH _ (String _ "")).
  by rewrite string_app_assoc.
Qed.

Lemma fixed_digits_compare_same w n acc1 acc2 :
  String.compare (fixed_digits w n acc1) (fixed_digits w n acc2)
  = String.compare acc1 acc2.
Proof.
  revert n acc1 acc2. induction w as [|w IH]; intros n acc1 acc2; simpl; [done|].
  rewrite IH. simpl. unfold Ascii.compare. by rewrite N.compare_refl.
Qed.

Lemma fixed_digits_compare_lt w n m acc1 acc2 :
  n < m → m < 10 ^ N.of_nat w →
  String.compare (fixed_digits w n acc1) (fixed_digits w m acc2) = Lt.
Proof.
  revert n m acc1 acc2.
  induction w as [|w IH]; intros n m acc1 acc2 Hnm Hm.
  { simpl in Hm. lia. }
  rewrite Nat2N.inj_succ, N.pow_succ_r' in Hm. simpl.
  assert (n / 10 ≤ m / 10) as Hq by (apply N.Div0.div_le_mono; lia).
  destruct (decide (n / 10 = m / 10)) as [Heq|Hne].
  - rewrite Heq, fixed_digits_compare_same. simpl.
    assert (n mod 10 < m mod 10) as Hr.
    { pose proof (N.Div0.div_mod n 10). pose proof (N.Div0.div_mod m 10). lia. }
    rewrite digit_compare by (apply N.mod_lt; lia).
    by apply N.compare_lt_iff in Hr as ->.
  - apply IH; [lia|].
    apply N.Div0.div_lt_upper_bound. lia.
Qed.

Lemma digits_fixed k fuel n acc :
  10 ^ N.of_nat k ≤ n → n < 10 ^ N.of_nat (S k) → n < 10 * 2 ^ N.of_nat fuel →
  digits fuel n acc = fixed_digits (S k) n acc.
Proof.
  revert fuel n acc.
  induction k as [|k IH]; intros fuel n acc Hlo Hhi Hfuel.
  - change (10 ^ N.of_nat 1) with 10 in Hhi.
    assert ((n <? 10) = true) as Hlt by (apply N.ltb_lt; lia).
    destruct fuel; simpl; by rewrite ?Hlt.
  - rewrite Nat2N.inj_succ, N.pow_succ_r' in Hlo.
    rewrite (Nat2N.inj_succ (S k)), N.pow_succ_r' in Hhi.
    assert (10 ^ N.of_nat k ≠ 0) by (apply N.pow_nonzero; lia).
    assert ((n <? 10) = false) as Hge by (apply N.ltb_ge; lia).
    destruct fuel as [|fuel].
    { simpl in Hfuel. lia. }
    rewrite Nat2N.inj_succ, N.pow_succ_r' in Hfuel.
    cbn [digits]. rewrite Hge.
    change (fixed_digits (S (S k)) n acc)
      with (fixed_digits (S k) (n / 10) (String (digit (n mod 10)) acc)).
    apply IH.
    + apply N.div_le_lower_bound; lia.
    + apply N.Div0.div_lt_upper_bound. lia.
    + assert (n / 10 < 2 * 2 ^ N.of_nat fuel)
        by (apply N.Div0.div_lt_upper_bound; lia).
      lia.
Qed.

Lemma number_to_string_fixed k n :
  10 ^ N.of_nat k ≤ n → n < 10 ^ N.of_nat (S k) →
  number_to_string n = fixed_digits (S k) n "".
Proof.
  intros Hlo Hhi. unfold number_to_string. apply digits_fixed; [done..|].
  assert (0 < n).
  { assert (10 ^ N.of_nat k ≠ 0) by (apply N.pow_nonzero; lia). lia. }
  rewrite N2Nat.id.
  pose proof (N.log2_spec n) as [_ Hlog]; [done|].
  rewrite N.pow_succ_r' in Hlog. lia.
Qed.

Lemma filename_compare_lt k t1 o1 t2 o2 :
  10 ^ N.of_nat k ≤ t1 → t1 < t2 → t2 < 10 ^ N.of_nat (S k) →
  String.compare (filename t1 o1) (filename t2 o2) = Lt.
Proof.
  intros Hlo Hlt Hhi. unfold filename.
  rewrite !(number_to_string_fixed k) by lia.
  rewrite <- !fixed_digits_app.
  apply fixed_digits_compare_lt; [done|lia].
Qed.

Lemma compare_lt_le s1 s2 : String.compare s1 s2 = Lt → String.le s1 s2.
Proof. unfold String.le, String.leb. by intros ->. Qed.

Global Instance earlier_trans : Transitive earlier.
Proof. intros a b c. unfold earlier. lia. Qed.

Global Instance earlier_total : Total earlier.
Proof. intros a b. unfold earlier. lia. Qed.

Lemma earlier_strict k (l : list chunk) :
  StronglySorted earlier l →
  Forall (same_width k) l → NoDup (arrived <$> l) →
  StronglySorted (λ a b, same_width k a ∧ same_width k b ∧ arrived a < arrived b) l.
Proof.
  induction 1 as [|c l Hs IH Hc]; intros Hw Hnd; [constructor|].
  apply Forall_cons in Hw as [Hc0 Hw].
  rewrite fmap_cons in Hnd. apply NoDup_cons in Hnd as [Hnotin Hnd].
  constructor; [by apply IH|].
  apply Forall_forall. intros c' Hin.
  rewrite Forall_forall in Hc, Hw.
  split_and!; [done|by apply Hw|].
  assert (arrived c ≠ arrived c').
  { intros Heq. apply Hnotin. rewrite Heq. by apply list_elem_of_fmap_2. }
  specialize (Hc _ Hin). unfold earlier in Hc. lia.
Qed.

Lemma by_timestamp_strict k (chunks : list chunk) :
  Forall (same_width k) chunks → NoDup (arrived <$> chunks) →
  StronglySorted (λ a b, same_width k a ∧ same_width k b ∧ arrived a < arrived b)
                 (by_timestamp chunks).
Proof.
  intros Hw Hnd. unfold by_timestamp.
  assert (merge_sort earlier chunks ≡ₚ chunks) as Hperm
    by apply merge_sort_Permutation.
  apply earlier_strict.
  - apply StronglySorted_merge_sort; apply _.
  - by rewrite Hperm.
  - by rewrite Hperm.
Qed.

(** With timestamps of one width and no timestamp used twice, sorting the
    file names is sorting the chunks by their timestamps. *)
Lemma sort_chunk_files k (chunks : list chunk) (names : list string) :
  Forall (same_width k) chunks → NoDup (arrived <$> chunks) →
  names ≡ₚ chunk_file <$> chunks →
  sort names = chunk_file <$> by_timestamp chunks.
Proof.
  intros Hw Hnd Hperm. unfold sort.
  apply (Sorted_unique String.le).
  - apply Sorted_merge_sort, _.
  - apply StronglySorted_Sorted.
    eapply StronglySorted_fmap; [|by apply by_timestamp_strict].
    intros a b ([Ha _] & [_ Hb] & Hlt).
    eapply compare_lt_le, filename_compare_lt; eauto.
  - rewrite merge_sort_Permutation, Hperm.
    unfold by_timestamp. by rewrite merge_sort_Permutation.
Qed.

(** ** The file system *)

Lemma child_of_Some dir key name :
  child_of dir key = Some name ↔ key = dir ++ [name].
Proof.
  unfold child_of. split.
  - destruct (key !! length dir) as [n|]; [|done].
    case_decide; naive_solver.
  - intros ->. rewrite list_lookup_middle by done.
    by rewrite decide_True.
Qed.

Lemma children_spec (d : fs) dir name :
  name ∈ children d dir ↔ is_Some (d !! (dir ++ [name])).
Proof.
  unfold children. rewrite list_elem_of_omap. split.
  - intros (key & Hin & Hc). apply child_of_Some in Hc as ->.
    apply list_elem_of_fmap in Hin as ([k v] & -> & Hin).
    apply elem_of_map_to_list in Hin. by exists v.
  - intros [v Hv]. exists (dir ++ [name]). split; [|by apply child_of_Some].
    apply list_elem_of_fmap. exists (dir ++ [name], v).
    split; [done|]. by apply elem_of_map_to_list.
Qed.

Lemma write_file_Ok (d : fs) p data d' :
  write_file d p data = Ok d' →
  trailing p = false ∧ d' = <[segs p := File data]> d.
Proof.
  unfold write_file. intros Hw.
  destruct (trailing p); [done|].
  destruct (segs p) as [|s l] eqn:Hsegs; [done|].
  destruct (d !! removelast (s :: l)) as [[]|]; try done.
  destruct (d !! (s :: l)) as [[]|]; naive_solver.
Qed.

Lemma write_file_child (d : fs) dir name data :
  d !! dir = Some Dir → d !! (dir ++ [name]) ≠ Some Dir →
  write_file d {| segs := dir ++ [name]; trailing := false |} data
  = Ok (<[dir ++ [name] := File data]> d).
Proof.
  intros Hdir Hne. unfold write_file. cbn [segs trailing].
  destruct (dir ++ [name]) eqn:Happ.
  { by apply app_eq_nil in Happ as [_ ?]. }
  rewrite <- Happ in *. rewrite removelast_last, Hdir.
  by destruct (d !! (dir ++ [name])) as [[]|].
Qed.

Lemma readFileSync_write_file (d : fs) p data d' :
  write_file d p data = Ok d' → readFileSync d' p = Ok data.
Proof.
  intros [Ht ->]%write_file_Ok. unfold readFileSync, stat.
  by rewrite lookup_insert_eq, Ht.
Qed.

Lemma readdirSync_Ok (d : fs) p names :
  readdirSync d p = Ok names →
  d !! segs p = Some Dir ∧ names = children d (segs p).
Proof.
  unfold readdirSync. destruct (d !! segs p) as [[]|]; naive_solver.
Qed.

Lemma readFileSync_Ok (d : fs) p data :
  readFileSync d p = Ok data ↔ d !! segs p = Some (File data) ∧ trailing p = false.
Proof.
  unfold readFileSync, stat. split.
  - destruct (d !! segs p) as [[]|]; [|done..].
    destruct (trailing p); naive_solver.
  - by intros [-> ->].
Qed.

Lemma rmdirSync_Ok (d : fs) p d' :
  rmdirSync d p = Ok d' →
  d' = delete (segs p) d ∧ children d (segs p) = [].
Proof.
  unfold rmdirSync, stat. intros Hr.
  destruct (d !! segs p) as [[]|]; simpl in Hr; try done.
  - by destruct (trailing p).
  - repeat case_decide; naive_solver.
Qed.

Lemma remove_video_dir_None (d : fs) p d' :
  remove_video_dir d p = (d', None) →
  d' !! segs p = None ∧ ∀ name, d' !! (segs p ++ [name]) = None.
Proof.
  unfold remove_video_dir. intros Hr.
  destruct (readdirSync d p) as [files|]; [|done].
  destruct (unlink_each d p files) as [d1 [e|]]; [done|].
  destruct (rmdirSync d1 p) as [d2|] eqn:Hrm; [|done].
  simplify_eq. apply rmdirSync_Ok in Hrm as [-> Hch].
  split; [apply lookup_delete_eq|].
  intros name. apply eq_None_not_Some. intros Hsome.
  assert (name ∈ children d1 (segs p)) as Hin.
  { apply children_spec. rewrite lookup_delete_ne in Hsome; [done|].
    intros Heq. apply (f_equal length) in Heq.
    rewrite length_app in Heq. simpl in Heq. lia. }
  rewrite Hch in Hin. by apply elem_of_nil in Hin.
Qed.

Lemma existsSync_false_after_remove (d : fs) p d' :
  remove_video_dir d p = (d', None) → existsSync d' p = false.
Proof.
  intros [Hnone _]%remove_video_dir_None.
  unfold existsSync, stat. by rewrite Hnone.
Qed.

(** ** [DELETE /deleteVideo/:videoId] *)

(** C7.  Cleaning up a video directory that does not exist answers 200 and
    leaves the world as it is; and after a cleanup that answered 200 the
    directory does not exist, so that the same call made again answers 200
    again and changes nothing. *)
Theorem deleteVideo_idempotent {C : Collaborators} (videoId : string) (w : world) :
  (existsSync (disk w) (videoDir_of videoId) = false →
   delete_deleteVideo videoId w
   = (respond 200 (Message "All video files deleted successfully"), w))
  ∧ (∀ r w', delete_deleteVideo videoId w = (Some r, w') → status r = 200%nat →
       existsSync (disk w') (videoDir_of videoId) = false
       ∧ delete_deleteVideo videoId w' = (Some r, w')).
Proof.
  split.
  - intros Hno. unfold delete_deleteVideo. by rewrite Hno.
  - intros r w' Hdel Hst.
    assert (existsSync (disk w') (videoDir_of videoId) = false) as Hgone.
    { unfold delete_deleteVideo in Hdel.
      destruct (existsSync (disk w) (videoDir_of videoId)) eqn:Hex.
      - destruct (remove_video_dir (disk w) (videoDir_of videoId))
          as [d [e|]] eqn:Hrm; outcome.
        by eapply existsSync_false_after_remove.
      - by outcome. }
    split; [done|].
    unfold delete_deleteVideo in *. rewrite Hgone.
    destruct (existsSync (disk w) (videoDir_of videoId)).
    + destruct (remove_video_dir (disk w) (videoDir_of videoId)) as [d [e|]];
        by outcome.
    + by outcome.
Qed.

Lemma deleteVideo_idempotent_witness :
  let once := delete_deleteVideo (C := demo) alice_videoId world_uploaded in
  delete_deleteVideo (C := demo) alice_videoId world_alice
  = (respond 200 (Message "All video files deleted successfully"), world_alice)
  ∧ existsSync (disk world_uploaded) (videoDir_of (C := demo) alice_videoId) = true
  ∧ existsSync (disk once.2) (videoDir_of (C := demo) alice_videoId) = false
  ∧ delete_deleteVideo (C := demo) alice_videoId once.2 = once.
Proof.
  split; [|split; [evaluate|]].
  - apply (proj1 (deleteVideo_idempotent (C := demo) alice_videoId world_alice)).
    evaluate.
  - pose proof (proj2 (deleteVideo_idempotent (C := demo) alice_videoId world_uploaded)
                  {| status := 200; json := Message "All video files deleted successfully" |}
                  (delete_deleteVideo (C := demo) alice_videoId world_uploaded).2) as H.
    destruct H as [H1 H2]; [apply outcome_eq; evaluate|reflexivity|].
    split; [exact H1|].
    etrans; [exact H2|]. symmetry. apply outcome_eq. evaluate.
Defined.

(** ** Paths *)

Lemma endsWith_slash_split name :
  endsWith name "/" = true → split "/" name ≠ [name].
Proof.
  induction name as [|c name IH]; [done|].
  cbn [endsWith split]. intros Hends.
  apply orb_true_iff in Hends as [Heq%bool_decide_eq_true|Hends].
  - simplify_eq. done.
  - specialize (IH Hends). case_decide; [done|].
    destruct (split "/" name) as [|x xs]; naive_solver.
Qed.

Lemma path_join_plain p name :
  plain name →
  path_join p [name] = {| segs := segs p ++ [name]; trailing := false |}.
Proof.
  intros (Hne & Hdot & Hdots & Hsplit). unfold path_join.
  rewrite filter_cons_True, filter_nil by done. f_equal.
  - rewrite fmap_cons, fmap_nil. simpl. rewrite app_nil_r, Hsplit.
    cbn [normalize]. rewrite decide_False by (by intros [?|?]).
    rewrite decide_False by done. cbn [rev]. by rewrite rev_involutive.
  - cbn [last]. destruct (endsWith name "/") eqn:Hends; [|done].
    by apply endsWith_slash_split in Hends.
Qed.

Lemma plain_final_video : plain "final_video.webm".
Proof. by vm_compute. Qed.

Lemma output_path p :
  path_join p ["final_video.webm"]
  = {| segs := segs p ++ ["final_video.webm"]; trailing := false |}.
Proof. apply path_join_plain, plain_final_video. Qed.

(** ** Joining the chunks *)

Lemma sort_nil_inv l : length (sort l) = 0%nat → l = [].
Proof.
  intros Hlen. apply nil_length_inv.
  rewrite <- Hlen. unfold sort. by rewrite merge_sort_Permutation.
Qed.

Lemma write_chunks_None (d : fs) dir files written out :
  write_chunks d dir files written = (out, None) →
  ∃ datas, out = written ++ datas
    ∧ Forall2 (λ file data, readFileSync d (path_join dir [file]) = Ok data)
              files datas.
Proof.
  revert written. induction files as [|file files IH]; intros written Hw.
  - simplify_eq/=. exists []. by rewrite app_nil_r.
  - cbn [write_chunks] in Hw.
    destruct (readFileSync d (path_join dir [file])) as [data|] eqn:Hread; [|done].
    apply IH in Hw as (datas & -> & Hall).
    exists (data :: datas). split; [by rewrite <- app_assoc|by constructor].
Qed.

Lemma write_chunks_all (d : fs) dir files written datas :
  Forall2 (λ file data, readFileSync d (path_join dir [file]) = Ok data) files datas →
  write_chunks d dir files written = (written ++ datas, None).
Proof.
  intros Hall. revert written.
  induction Hall as [|file data files datas Hread _ IH]; intros written.
  - by rewrite app_nil_r.
  - cbn [write_chunks]. rewrite Hread, IH. by rewrite <- app_assoc.
Qed.

Lemma join_chunks_Finished (d : fs) dir out d' :
  join_chunks d dir out = Finished d' →
  ∃ names datas,
    readdirSync d dir = Ok names
    ∧ filter (λ file, endsWith file ".webm" = true) names ≠ []
    ∧ Forall2 (λ file data, readFileSync d (path_join dir [file]) = Ok data)
              (sort (filter (λ file, endsWith file ".webm" = true) names)) datas
    ∧ write_file d out (mjoin datas) = Ok d'.
Proof.
  unfold join_chunks, webm_files. intros Hj.
  destruct (readdirSync d dir) as [names|] eqn:Hnames; [|done]. simpl in Hj.
  case_decide as Hlen; [done|].
  destruct (write_chunks d dir _ []) as [written [e|]] eqn:Hw.
  { by destruct (write_file d out (mjoin written)). }
  apply write_chunks_None in Hw as (datas & -> & Hall).
  destruct (write_file d out (mjoin ([] ++ datas))) as [d1|] eqn:Hwrite; [|done].
  simplify_eq. exists names, datas. split_and!; try done.
  intros Hnil. rewrite Hnil in Hlen. by apply Hlen.
Qed.

Lemma join_chunks_empty (d : fs) dir out names :
  readdirSync d dir = Ok names →
  filter (λ file, endsWith file ".webm" = true) names = [] →
  join_chunks d dir out = NoChunks.
Proof.
  intros Hnames Hnil. unfold join_chunks, webm_files.
  rewrite Hnames. simpl. by rewrite Hnil.
Qed.

Lemma join_chunks_missing (d : fs) dir out :
  d !! segs dir = None →
  join_chunks d dir out = Failed (FsError ENOENT (segs dir)) d.
Proof.
  intros Hnone. unfold join_chunks, webm_files, readdirSync. by rewrite Hnone.
Qed.

Lemma read_in_order {A} (rd : string → result (list Byte.byte)) (name : A → string)
    (data : A → list Byte.byte) (l : list A) datas :
  Forall2 (λ file got, rd file = Ok got) (name <$> l) datas →
  Forall (λ c, rd (name c) = Ok (data c)) l →
  datas = data <$> l.
Proof.
  revert datas. induction l as [|c l IH]; intros datas H2 H1.
  - by apply Forall2_nil_inv_l in H2.
  - rewrite fmap_cons in H2.
    apply Forall2_cons_inv_l in H2 as (got & datas' & Hgot & H2 & ->).
    apply Forall_cons in H1 as [Hc H1].
    rewrite fmap_cons. f_equal; [congruence|by apply IH].
Qed.

(** ** [POST /finishUpload/:videoId] *)

Lemma finishUpload_Finished {C : Collaborators} videoId w r w' :
  VariantB.post_finishUpload videoId w = (Some r, w') → status r = 200%nat →
  ∃ names datas,
    readdirSync (disk w) (videoDir_of videoId) = Ok names
    ∧ filter (λ file, endsWith file ".webm" = true) names ≠ []
    ∧ Forall2 (λ file data,
                 readFileSync (disk w) (path_join (videoDir_of videoId) [file])
                 = Ok data)
              (sort (filter (λ file, endsWith file ".webm" = true) names)) datas
    ∧ write_file (disk w) (path_join (videoDir_of videoId) ["final_video.webm"])
                 (mjoin datas) = Ok (disk w').
Proof.
  intros Hfin Hst. unfold VariantB.post_finishUpload in Hfin.
  destruct (join_chunks (disk w) _ _) as [|e d|e|d] eqn:Hj; outcome.
  by apply join_chunks_Finished in Hj.
Qed.


(** C1.  A finalize of variant B that answers 200 leaves in
    [final_video.webm] the contents of the [.webm] files of the directory,
    as they were before the call, one after the other in the order of their
    names sorted code unit by code unit.  When these files are the chunks of some uploads whose
    timestamps have one width and differ, that order is the ascending order
    of the timestamps, whatever the order in which the uploads arrived. *)
Theorem finishUpload_concatenates {C : Collaborators} (videoId : string)
    (w : world) (r : response) (w' : world) :
  VariantB.post_finishUpload videoId w = (Some r, w') → status r = 200%nat →
  let videoDir := videoDir_of videoId in
  ∃ names datas,
    let files := sort (filter (λ file, endsWith file ".webm" = true) names) in
    readdirSync (disk w) videoDir = Ok names
    ∧ files ≠ []
    ∧ files ≡ₚ filter (λ file, endsWith file ".webm" = true) names
    ∧ Sorted String.le files
    ∧ Forall2 (λ file data,
                 readFileSync (disk w) (path_join videoDir [file]) = Ok data)
              files datas
    ∧ readFileSync (disk w') (path_join videoDir ["final_video.webm"])
      = Ok (mjoin datas)
    ∧ ∀ (k : nat) (uploads : list chunk),
        Forall (same_width k) uploads →
        NoDup (arrived <$> uploads) →
        filter (λ file, endsWith file ".webm" = true) names
          ≡ₚ chunk_file <$> uploads →
        Forall (λ c, readFileSync (disk w) (path_join videoDir [chunk_file c])
                     = Ok (content c)) uploads →
        mjoin datas = mjoin (content <$> by_timestamp uploads).
Proof.
  intros Hfin Hst videoDir.
  destruct (finishUpload_Finished videoId w r w' Hfin Hst)
    as (names & datas & Hnames & Hne & Hall & Hw).
  exists names, datas. split_and!; [done| | | |done| |].
  - intros Hnil. apply Hne, sort_nil_inv. by rewrite Hnil.
  - apply merge_sort_Permutation.
  - apply Sorted_merge_sort, _.
  - by eapply readFileSync_write_file.
  - intros k uploads Hwidth Hnd Hperm Hread. f_equal.
    rewrite (sort_chunk_files k uploads) in Hall by done.
    eapply (read_in_order _ chunk_file content); [exact Hall|].
    unfold by_timestamp. by rewrite merge_sort_Permutation.
Qed.

Lemma finishUpload_concatenates_witness :
  let finished := VariantB.post_finishUpload (C := demo) alice_videoId world_uploaded in
  readFileSync (disk finished.2)
    (path_join (videoDir_of (C := demo) alice_videoId) ["final_video.webm"])
  = Ok (bytes_of "firstsecondthird").
Proof.
  intros finished.
  destruct (finishUpload_concatenates (C := demo) alice_videoId world_uploaded
              {| status := 200;
                 json := VideoFile "Video file created successfully"
                           (path_join (videoDir_of (C := demo) alice_videoId)
                                      ["final_video.webm"]) |}
              finished.2)
    as (names & datas & Hnames & _ & _ & _ & _ & Hout & Horder);
    [apply outcome_eq; evaluate|reflexivity|].
  rewrite Hout. f_equal.
  rewrite (Horder 12%nat [chunk_a; chunk_b; chunk_c]).
  - evaluate.
  - repeat constructor; unfold same_width; simpl; lia.
  - apply (bool_decide_unpack _). evaluate.
  - vm_compute in Hnames. injection Hnames as <-.
    apply (bool_decide_unpack _). evaluate.
  - repeat constructor.
Defined.

(** C2, as the code has it.  When the directory of the videoId exists and
    holds no file whose name ends in [.webm], finalize answers 400 and the
    world is what it was: no output file is created.  When the directory
    does not exist, [readdirSync] throws; the handler logs the error and
    answers 500, and the disk is what it was.  Both variants agree. *)
Theorem finishUpload_without_chunks {C : Collaborators} (videoId : string) (w : world) :
  (∀ names,
     readdirSync (disk w) (videoDir_of videoId) = Ok names →
     filter (λ file, endsWith file ".webm" = true) names = [] →
     VariantB.post_finishUpload videoId w
     = (respond 400 (Message "No video chunks found"), w)
     ∧ ∀ upload_reply,
         VariantA.post_finishUpload videoId upload_reply w
         = (respond 400 (Message "No video chunks found"), w))
  ∧ (disk w !! segs (videoDir_of videoId) = None →
     let e := FsError ENOENT (segs (videoDir_of videoId)) in
     let w' := logged (console_error "Error finalizing video upload:" e) w in
     disk w' = disk w
     ∧ VariantB.post_finishUpload videoId w = (respond 500 (ServerError e), w')
     ∧ ∀ upload_reply,
         VariantA.post_finishUpload videoId upload_reply w
         = (respond 500 (ServerError e), w')).
Proof.
  split.
  - intros names Hnames Hnil.
    unfold VariantB.post_finishUpload, VariantA.post_finishUpload.
    split; [|intros upload_reply]; by erewrite join_chunks_empty.
  - intros Hnone e w'.
    unfold VariantB.post_finishUpload, VariantA.post_finishUpload.
    split_and!; [done| |intros upload_reply];
      rewrite join_chunks_missing by done; by destruct w.
Qed.

Lemma finishUpload_without_chunks_witness :
  (VariantB.post_finishUpload (C := demo) alice_videoId world_notes).1
  = respond 400 (Message "No video chunks found")
  ∧ (VariantB.post_finishUpload (C := demo) alice_videoId world_alice).1
    = respond 500 (ServerError (FsError ENOENT
        (segs (videoDir_of (C := demo) alice_videoId)))).
Proof.
  split.
  - destruct (proj1 (finishUpload_without_chunks (C := demo) alice_videoId world_notes)
                ["1700000000000-notes.txt"]) as [-> _]; [evaluate..|reflexivity].
  - destruct (proj2 (finishUpload_without_chunks (C := demo) alice_videoId world_alice))
      as (_ & -> & _); [evaluate|reflexivity].
Defined.

(** C2 as stated fails where the directory is missing: Alice has uploaded
    nothing, her directory does not exist, and finalize answers 500. *)
Lemma finishUpload_missing_directory_500 :
  disk world_alice !! segs (videoDir_of (C := demo) alice_videoId) = None
  ∧ status <$> (VariantB.post_finishUpload (C := demo) alice_videoId world_alice).1
    = Some 500%nat
  ∧ status <$> (VariantA.post_finishUpload (C := demo) alice_videoId
                  (Ok "https://res.cloudinary.com/demo/video/upload/final_video.webm")
                  world_alice).1
    = Some 500%nat.
Proof. split_and!; evaluate. Qed.

Lemma elem_of_sort name names : name ∈ sort names ↔ name ∈ names.
Proof. unfold sort. by rewrite merge_sort_Permutation. Qed.

Lemma output_among_webm_files (d : fs) p names previous :
  readdirSync d p = Ok names →
  readFileSync d (path_join p ["final_video.webm"]) = Ok previous →
  "final_video.webm" ∈ sort (filter (λ file, endsWith file ".webm" = true) names).
Proof.
  intros [_ ->]%readdirSync_Ok [Hfile _]%readFileSync_Ok.
  rewrite output_path in Hfile. simpl in Hfile.
  apply elem_of_sort, list_elem_of_filter. split; [by vm_compute|].
  apply children_spec. by rewrite Hfile.
Qed.

Lemma mjoin_elem_of {A} (x : list A) (l : list (list A)) :
  x ∈ l → ∃ pre post, mjoin l = pre ++ x ++ post.
Proof.
  intros (l1 & l2 & ->)%list_elem_of_split.
  exists (mjoin l1), (mjoin l2). by rewrite join_app.
Qed.

(** C9.  The finalize of variant B takes every [.webm] name of the
    directory, its own output included: after a finalize that answered 200,
    [final_video.webm] is in the list of the next one; and wherever the
    directory holds a [final_video.webm], finalize does not answer 400, a
    finalize that answers 200 has put the previous content of that file into
    the new one, and when no other [.webm] file is left the answer is 200
    and the new content is the previous one. *)
Theorem finishUpload_reads_its_output {C : Collaborators} (videoId : string) :
  let videoDir := videoDir_of videoId in
  let outputFilePath := path_join videoDir ["final_video.webm"] in
  (∀ w r w',
     VariantB.post_finishUpload videoId w = (Some r, w') → status r = 200%nat →
     ∃ files, webm_files (disk w') videoDir = Ok files
              ∧ "final_video.webm" ∈ files)
  ∧ (∀ w names previous,
       readdirSync (disk w) videoDir = Ok names →
       readFileSync (disk w) outputFilePath = Ok previous →
       "final_video.webm"
         ∈ sort (filter (λ file, endsWith file ".webm" = true) names)
       ∧ status <$> (VariantB.post_finishUpload videoId w).1 ≠ Some 400%nat
       ∧ (∀ r w', VariantB.post_finishUpload videoId w = (Some r, w') →
                  status r = 200%nat →
                  ∃ pre post, readFileSync (disk w') outputFilePath
                              = Ok (pre ++ previous ++ post))
       ∧ (filter (λ file, endsWith file ".webm" = true) names
          = ["final_video.webm"] →
          ∃ w', VariantB.post_finishUpload videoId w
                = (respond 200 (VideoFile "Video file created successfully"
                                  outputFilePath), w')
                ∧ readFileSync (disk w') outputFilePath = Ok previous)).
Proof.
  intros videoDir outputFilePath.
  assert (∀ w names previous,
            readdirSync (disk w) videoDir = Ok names →
            readFileSync (disk w) outputFilePath = Ok previous →
            "final_video.webm"
              ∈ sort (filter (λ file, endsWith file ".webm" = true) names))
    as Hamong by (intros; by eapply output_among_webm_files).
  split.
  - intros w r w' Hfin Hst. unfold VariantB.post_finishUpload in Hfin.
    fold videoDir outputFilePath in Hfin.
    destruct (join_chunks (disk w) videoDir outputFilePath)
      as [|e d|e|d] eqn:Hj; outcome.
    apply join_chunks_Finished in Hj as (names & datas & Hnames & _ & _ & Hw).
    pose proof (readFileSync_write_file _ _ _ _ Hw) as Hread.
    apply write_file_Ok in Hw as [_ ->].
    apply readdirSync_Ok in Hnames as [Hdir _].
    assert (readdirSync (<[segs outputFilePath := File (mjoin datas)]> (disk w)) videoDir
            = Ok (children (<[segs outputFilePath := File (mjoin datas)]> (disk w))
                           (segs videoDir))) as Hnames'.
    { unfold readdirSync. rewrite lookup_insert_ne, Hdir; [done|].
      unfold outputFilePath. rewrite output_path. simpl.
      intros Heq. apply (f_equal length) in Heq.
      rewrite length_app in Heq. simpl in Heq. lia. }
    eexists. split.
    + unfold webm_files. rewrite Hnames'. done.
    + eapply output_among_webm_files; [exact Hnames'|exact Hread].
  - intros w names previous Hnames Hprev.
    pose proof (Hamong _ _ _ Hnames Hprev) as Hin.
    split_and!; [done| | |].
    + unfold VariantB.post_finishUpload. fold videoDir outputFilePath.
      unfold join_chunks, webm_files. rewrite Hnames. simpl.
      case_decide as Hlen.
      { apply nil_length_inv in Hlen. rewrite Hlen in Hin.
        by apply elem_of_nil in Hin. }
      destruct (write_chunks _ _ _ _) as [written [e|]];
        by destruct (write_file _ _ _).
    + intros r w' Hfin Hst. unfold VariantB.post_finishUpload in Hfin.
      fold videoDir outputFilePath in Hfin.
      destruct (join_chunks (disk w) videoDir outputFilePath)
        as [|e d|e|d] eqn:Hj; outcome.
      apply join_chunks_Finished in Hj as (names' & datas & Hnames' & _ & Hall & Hw).
      rewrite Hnames in Hnames'. simplify_eq.
      apply list_elem_of_lookup in Hin as [i Hi].
      destruct (Forall2_lookup_l _ _ _ _ _ Hall Hi) as (data & Hdata & Hread).
      fold outputFilePath in Hread. rewrite Hprev in Hread. simplify_eq.
      apply list_elem_of_lookup_2, mjoin_elem_of in Hdata as (pre & post & Hjoin).
      exists pre, post. rewrite <- Hjoin. by eapply readFileSync_write_file.
    + intros Hone.
      apply readFileSync_Ok in Hprev as Hfile. destruct Hfile as [Hfile Htr].
      apply readdirSync_Ok in Hnames as Hdir. destruct Hdir as [Hdir _].
      unfold VariantB.post_finishUpload. fold videoDir outputFilePath.
      unfold join_chunks, webm_files. rewrite Hnames. simpl. rewrite Hone.
      change (sort ["final_video.webm"]) with ["final_video.webm"].
      rewrite decide_False by done.
      cbn [write_chunks]. fold outputFilePath. rewrite Hprev. simpl.
      rewrite app_nil_r.
      assert (write_file (disk w) outputFilePath previous
              = Ok (<[segs outputFilePath := File previous]> (disk w))) as Hw.
      { unfold outputFilePath in *. rewrite output_path in *.
        apply write_file_child; [done|]. cbn [segs] in Hfile. by rewrite Hfile. }
      rewrite Hw. eexists. split; [done|].
      apply readFileSync_Ok. simpl. by rewrite lookup_insert_eq.
Qed.

(** ** Mongoose documents *)

Lemma videoId_in_schema : "videoId" ∈ DoctorSchema.
Proof. apply (bool_decide_unpack _). by vm_compute. Qed.

Lemma videoUrl_not_in_schema : "videoUrl" ∉ DoctorSchema.
Proof. apply (bool_decide_unpack _). by vm_compute. Qed.

Lemma doc_get_schema_path {C : Collaborators} doctor key :
  key ∈ DoctorSchema → doc_get doctor key = doc_fields doctor !! key.
Proof. intros Hin. unfold doc_get. by rewrite decide_True. Qed.


(** Setting [videoUrl] on a loaded document leaves nothing for [save] to
    write. *)
Lemma save_after_set_videoUrl {C : Collaborators} id stored v (c : collection) :
  save (doc_set (hydrate id stored) "videoUrl" v) c = Ok c.
Proof.
  unfold doc_set. rewrite decide_False by apply videoUrl_not_in_schema. done.
Qed.

Lemma findOne_videoId_hydrate {C : Collaborators} videoId (c : collection) doctor :
  findOne_videoId videoId c = Some doctor →
  ∃ stored, doctor = hydrate (doc_id doctor) stored
            ∧ c !! doc_id doctor = Some stored
            ∧ stored !! "videoId" = Some (JStr videoId).
Proof.
  unfold findOne_videoId.
  destruct (filter _ (map_to_list c)) as [|[id stored] rest] eqn:Hf; [done|].
  intros [= <-]. exists stored. simpl.
  assert ((id, stored) ∈ filter (λ e, has_videoId videoId e = true) (map_to_list c))
    as Hin by (rewrite Hf; left).
  apply list_elem_of_filter in Hin as [Hhas Hin].
  apply elem_of_map_to_list in Hin. split_and!; [done..|].
  unfold has_videoId in Hhas. simpl in Hhas.
  destruct (stored !! "videoId") as [[]|]; try done.
  by apply bool_decide_eq_true in Hhas as ->.
Qed.

Lemma with_doctors_same w : with_doctors (doctors w) w = w.
Proof. by destruct w. Qed.

Lemma with_disk_same w : with_disk (disk w) w = w.
Proof. by destruct w. Qed.

(** ** What finalize and doctor deletion leave on the disk *)

(** C8, as the code has it.  A finalize that answers 200 deletes no chunk:
    in variant B and in variant A every path other than the output file is
    bound as before.  A doctor deletion of variant B that answers 200 leaves
    the directory of the doctor's videoId absent and, when it was there,
    nothing under it.  The doctor deletion of variant A does not touch the
    disk. *)
Theorem chunk_files_after_finalize_and_delete {C : Collaborators} (w : world) :
  (∀ videoId r w' key,
     VariantB.post_finishUpload videoId w = (Some r, w') → status r = 200%nat →
     key ≠ segs (path_join (videoDir_of videoId) ["final_video.webm"]) →
     disk w' !! key = disk w !! key)
  ∧ (∀ videoId upload_reply r w' key,
       VariantA.post_finishUpload videoId upload_reply w = (Some r, w') →
       status r = 200%nat →
       key ≠ segs (path_join (videoDir_of videoId) [videoId +:+ ".webm"]) →
       disk w' !! key = disk w !! key)
  ∧ (∀ id oid stored videoId r w',
       cast_object_id (JStr id) = Some oid →
       doctors w !! oid = Some stored →
       stored !! "videoId" = Some (JStr videoId) →
       VariantB.delete_doctors id w = (Some r, w') → status r = 200%nat →
       existsSync (disk w') (videoDir_of videoId) = false
       ∧ (existsSync (disk w) (videoDir_of videoId) = true →
          ∀ name, disk w' !! (segs (videoDir_of videoId) ++ [name]) = None))
  ∧ (∀ id destroy,
       disk (VariantA.delete_doctors id destroy w).2 = disk w).
Proof.
  split_and!.
  - intros videoId r w' key Hfin Hst Hkey.
    unfold VariantB.post_finishUpload in Hfin.
    destruct (join_chunks _ _ _) as [|e d|e|d] eqn:Hj; outcome.
    apply join_chunks_Finished in Hj as (_ & datas & _ & _ & _ & Hw).
    apply write_file_Ok in Hw as [_ ->]. by rewrite lookup_insert_ne.
  - intros videoId upload_reply r w' key Hfin Hst Hkey.
    unfold VariantA.post_finishUpload in Hfin.
    destruct (join_chunks _ _ _) as [|e d|e|d] eqn:Hj; outcome.
    apply join_chunks_Finished in Hj as (_ & datas & _ & _ & _ & Hw).
    apply write_file_Ok in Hw as [_ ->].
    unfold VariantA.on_finish in Hfin.
    destruct upload_reply as [url|e]; [|outcome].
    cbn [disk with_disk] in Hfin.
    destruct (unlinkSync _ _) as [d|e] eqn:Hu; [|outcome].
    destruct (findOne_videoId _ _); [|outcome].
    destruct (save _ _); outcome.
    unfold unlinkSync, stat in Hu. rewrite lookup_insert_eq in Hu.
    destruct (trailing _); simplify_eq/=.
    by rewrite lookup_delete_ne, lookup_insert_ne.
  - intros id oid stored videoId r w' Hcast Hdoc Hvid Hdel Hst.
    unfold VariantB.delete_doctors, findByIdAndDelete in Hdel.
    rewrite Hcast, Hdoc in Hdel.
    rewrite doc_get_schema_path in Hdel by apply videoId_in_schema.
    cbn [hydrate doc_fields with_doctors disk] in Hdel. rewrite Hvid in Hdel.
    destruct (existsSync (disk w) (videoDir_of videoId)) eqn:Hex.
    + destruct (remove_video_dir _ _) as [d [e|]] eqn:Hrm; outcome.
      split; [by eapply existsSync_false_after_remove|].
      intros _. by apply remove_video_dir_None in Hrm as [_ ?].
    + outcome. done.
  - intros id destroy. unfold VariantA.delete_doctors.
    destruct (findByIdAndDelete id (doctors w)) as [[[doctor|] c]|e]; [|done..].
    destruct (doc_get doctor "videoUrl") as [[]|]; simpl;
      repeat case_match; done.
Qed.

(** The three chunks are still there after the finalize of variant B
    answered 200: C8 as stated fails. *)
Lemma chunks_remain_after_finalize :
  let finished := VariantB.post_finishUpload (C := demo) alice_videoId world_uploaded in
  status <$> finished.1 = Some 200%nat
  ∧ Forall (λ c, readFileSync (disk finished.2)
                   (path_join (videoDir_of (C := demo) alice_videoId) [chunk_file c])
                 = Ok (content c))
           [chunk_a; chunk_b; chunk_c].
Proof. repeat constructor; evaluate. Qed.

Lemma chunk_files_after_finalize_and_delete_witness :
  let deleted := VariantB.delete_doctors (C := demo) alice_id world_uploaded in
  status <$> deleted.1 = Some 200%nat
  ∧ existsSync (disk world_uploaded) (videoDir_of (C := demo) alice_videoId) = true
  ∧ existsSync (disk deleted.2) (videoDir_of (C := demo) alice_videoId) = false
  ∧ disk deleted.2
      !! (segs (videoDir_of (C := demo) alice_videoId) ++ [chunk_file chunk_a]) = None.
Proof.
  intros deleted.
  destruct (chunk_files_after_finalize_and_delete (C := demo) world_uploaded)
    as (_ & _ & Hdel & _).
  destruct (Hdel alice_id alice_id alice_stored alice_videoId
              {| status := 200;
                 json := Message "Doctor and related video files deleted successfully" |}
              deleted.2) as [Hgone Hempty];
    [evaluate..|apply outcome_eq; evaluate|reflexivity|].
  split_and!; [evaluate|evaluate|exact Hgone|].
  apply Hempty. evaluate.
Defined.

(** ** [DELETE /doctors/:id] *)




Lemma finishUpload_reads_its_output_witness :
  (∃ files, webm_files (disk world_finalized) (videoDir_of (C := demo) alice_videoId)
            = Ok files ∧ "final_video.webm" ∈ files)
  ∧ ∃ w', VariantB.post_finishUpload (C := demo) alice_videoId world_chunks_gone
          = (respond 200 (VideoFile "Video file created successfully"
               (path_join (videoDir_of (C := demo) alice_videoId) ["final_video.webm"])),
             w')
          ∧ readFileSync (disk w')
              (path_join (videoDir_of (C := demo) alice_videoId) ["final_video.webm"])
            = Ok (bytes_of "firstsecondthird").
Proof.
  destruct (finishUpload_reads_its_output (C := demo) alice_videoId) as [Hnext Hagain].
  split.
  - apply (Hnext world_uploaded
             {| status := 200;
                json := VideoFile "Video file created successfully"
                          (path_join (videoDir_of (C := demo) alice_videoId)
                                     ["final_video.webm"]) |});
      [apply outcome_eq; evaluate|reflexivity].
  - destruct (Hagain world_chunks_gone ["final_video.webm"]
                (bytes_of "firstsecondthird")) as (_ & _ & _ & Honly);
      [evaluate..|].
    apply Honly. evaluate.
Defined.

(** ** [POST /finishUpload/:videoId] of variant A and the doctor document *)

(** C3, what the code does.  After a finalize of variant A that answered
    200, the answer carries the URL that Cloudinary returned and the local
    merged file is gone; but the collection is what it was before the call:
    [videoUrl] is no path of [DoctorSchema], the assignment makes a plain
    property of the object in memory and [save] writes nothing. *)
Theorem finishUpload_cloud_url_not_stored {C : Collaborators} (videoId : string)
    (upload_reply : result string) (w : world) (r : response) (w' : world) :
  VariantA.post_finishUpload videoId upload_reply w = (Some r, w') →
  status r = 200%nat →
  ∃ secure_url,
    upload_reply = Ok secure_url
    ∧ json r = VideoUrl "Video file created successfully" secure_url
    ∧ disk w' !! segs (path_join (videoDir_of videoId) [videoId +:+ ".webm"]) = None
    ∧ is_Some (findOne_videoId videoId (doctors w))
    ∧ doctors w' = doctors w.
Proof.
  intros Hfin Hst. unfold VariantA.post_finishUpload in Hfin.
  destruct (join_chunks _ _ _) as [|e d|e|d] eqn:Hj; outcome.
  unfold VariantA.on_finish in Hfin.
  destruct upload_reply as [secure_url|e]; [|outcome].
  cbn [disk doctors with_disk] in Hfin.
  destruct (unlinkSync d _) as [d'|e] eqn:Hu; [|outcome].
  destruct (findOne_videoId videoId (doctors w)) as [doctor|] eqn:Hdoc; [|outcome].
  apply findOne_videoId_hydrate in Hdoc as (stored & Hloaded & _ & _).
  rewrite Hloaded, save_after_set_videoUrl in Hfin. outcome.
  exists secure_url. split_and!; [done..| |done|done].
  unfold unlinkSync, stat in Hu.
  destruct (d !! segs _) as [[]|]; [|done..].
  destruct (trailing _); simplify_eq/=. apply lookup_delete_eq.
Qed.

Lemma finishUpload_cloud_url_not_stored_witness :
  let finished := VariantA.post_finishUpload (C := demo) alice_videoId
                    (Ok alice_url) world_uploaded in
  finished.1 = respond 200 (VideoUrl "Video file created successfully" alice_url)
  ∧ doctors finished.2 = doctors world_uploaded
  ∧ doctors finished.2 !! alice_id = Some alice_stored
  ∧ alice_stored !! "videoUrl" = None.
Proof.
  intros finished.
  destruct (finishUpload_cloud_url_not_stored (C := demo) alice_videoId
              (Ok alice_url) world_uploaded
              {| status := 200;
                 json := VideoUrl "Video file created successfully" alice_url |}
              finished.2) as (url & _ & _ & _ & _ & Hsame);
    [apply outcome_eq; evaluate|reflexivity|].
  split_and!; [evaluate|exact Hsame|rewrite Hsame; evaluate|evaluate].
Defined.

(** ** [PUT /doctors/:id] *)

(** C4, what the code does.  An update with a valid payload whose identifier
    matches no stored doctor never answers 404 and leaves the collection as
    it is; when the payload can be cast to the schema the answer is 200 with
    the body [null]. *)
Theorem put_unknown_doctor_answers_200 {C : Collaborators} (id oid : string)
    (req_body : gmap string jvalue) (w : world) :
  doctorValidationSchema req_body = None →
  cast_object_id (JStr id) = Some oid →
  doctors w !! oid = None →
  status <$> (put_doctors id req_body w).1 ≠ Some 404%nat
  ∧ (put_doctors id req_body w).2 = w
  ∧ (∀ set new_id, cast_fields req_body = Ok set → cast_id req_body = Ok new_id →
       put_doctors id req_body w = (respond 200 (DoctorJson None), w)).
Proof.
  intros Hvalid Hcast Hnone.
  unfold put_doctors, findByIdAndUpdate. rewrite Hvalid, Hcast.
  destruct (cast_fields req_body) as [set|e]; [|by split_and!].
  destruct (cast_id req_body) as [new_id|e]; [|by split_and!].
  simpl. rewrite Hnone. rewrite with_doctors_same. by split_and!.
Qed.

Lemma put_unknown_doctor_answers_200_witness :
  put_doctors (C := demo) alice_id alice world0
  = (respond 200 (DoctorJson None), world0).
Proof.
  destruct (put_unknown_doctor_answers_200 (C := demo) alice_id alice_id alice world0)
    as (_ & _ & Hput); [evaluate..|].
  apply (Hput (<["email" := JStr "a@x.com"]> {[ "name" := JStr "Alice" ]}) None);
    evaluate.
Defined.

(** ** [POST /doctors] *)

Lemma cast_paths_strings {C : Collaborators} (paths : list string)
    (obj : gmap string jvalue) :
  (∀ p v, p ∈ paths → obj !! p = Some v → ∃ s, v = JStr s) →
  ∃ m : gmap string jvalue,
    foldr (λ p acc,
             m ← acc;
             match obj !! p with
             | None => Ok m
             | Some v =>
                 match cast_string v with
                 | Some v' => Ok (<[p := v']> m)
                 | None => Throw (CastError p)
                 end
             end) (Ok ∅) paths = Ok m
    ∧ ∀ p, m !! p = if decide (p ∈ paths) then obj !! p else None.
Proof.
  induction paths as [|p0 paths IH]; intros Hstr.
  - exists ∅. split; [done|]. intros p. rewrite lookup_empty.
    rewrite decide_False; [done|]. apply not_elem_of_nil.
  - destruct IH as (m & Hm & Hlook).
    { intros p v Hp. apply Hstr. by right. }
    cbn [foldr]. rewrite Hm. cbn.
    destruct (obj !! p0) as [v|] eqn:Hp0.
    + destruct (Hstr p0 v) as [s ->]; [by left|done|].
      rewrite cast_string_JStr. eexists. split; [done|].
      intros p. destruct (decide (p = p0)) as [->|Hne].
      * rewrite lookup_insert_eq, decide_True by (by left). done.
      * rewrite lookup_insert_ne, Hlook by done.
        destruct (decide (p ∈ paths)) as [Hin|Hnin].
        -- rewrite decide_True by (by right). done.
        -- rewrite decide_False; [done|]. by intros [?|?]%elem_of_cons.
    + exists m. split; [done|].
      intros p. rewrite Hlook. destruct (decide (p = p0)) as [->|Hne].
      * rewrite (decide_True (P := p0 ∈ p0 :: paths)) by (by left).
        by case_decide.
      * destruct (decide (p ∈ paths)) as [Hin|Hnin].
        -- rewrite decide_True by (by right). done.
        -- rewrite decide_False; [done|]. by intros [?|?]%elem_of_cons.
Qed.




(** ** The videoId in the paths *)











(** * More of the code *)

(** ** Checks that run on closed instances *)

Lemma strings_on_schema (obj : gmap string jvalue) :
  forallb (λ p, match obj !! p with
                | Some (JStr _) | None => true
                | Some _ => false
                end) DoctorSchema = true →
  ∀ p v, p ∈ DoctorSchema → obj !! p = Some v → ∃ s, v = JStr s.
Proof.
  intros Hall p v Hp Hv. rewrite forallb_forall in Hall.
  specialize (Hall p). rewrite Hv in Hall.
  destruct v; try (by eexists); discriminate Hall; by apply list_elem_of_In.
Qed.

Lemma is_Some_default {A} (o : option A) (a : A) :
  match o with Some _ => true | None => false end = true → o = Some (default a o).
Proof. by destruct o. Qed.

Lemma files_of_uploaded file :
  file ∈ children (disk world_uploaded) (segs (videoDir_of (C := demo) alice_videoId)) →
  ∃ data, disk world_uploaded
            !! (segs (videoDir_of (C := demo) alice_videoId) ++ [file])
          = Some (File data).
Proof.
  intros Hin. vm_compute in Hin.
  repeat (apply elem_of_cons in Hin as [->|Hin]);
    [eexists; evaluate..|by apply elem_of_nil in Hin].
Qed.

Lemma videoIds_checked (c : collection) :
  forallb (λ entry : string * gmap string jvalue,
             match entry.2 !! "videoId" with
             | Some (JStr _) => true
             | _ => false
             end) (map_to_list c) = true →
  ∀ id stored, c !! id = Some stored →
               ∃ videoId, stored !! "videoId" = Some (JStr videoId).
Proof.
  intros Hall id stored Hdoc. rewrite forallb_forall in Hall.
  specialize (Hall (id, stored)). cbn in Hall.
  destruct (stored !! "videoId") as [[| | |videoId| |]|];
    try (by eexists); discriminate Hall; by apply list_elem_of_In, elem_of_map_to_list.
Qed.

(** ** More on the names of the chunks *)

Lemma fixed_digits_head k n acc :
  fixed_digits (S k) n acc
  = String (digit ((n / 10 ^ N.of_nat k) mod 10)) (fixed_digits k n acc).
Proof.
  revert n acc. induction k as [|k IH]; intros n acc.
  - cbn. by rewrite N.div_1_r.
  - change (fixed_digits (S (S k)) n acc)
      with (fixed_digits (S k) (n / 10) (String (digit (n mod 10)) acc)).
    rewrite IH. cbn [fixed_digits]. f_equal. f_equal.
    rewrite Nat2N.inj_succ, N.pow_succ_r', N.Div0.div_div. done.
Qed.

Lemma width_exists n : 0 < n → ∃ k, 10 ^ N.of_nat k ≤ n ∧ n < 10 ^ N.of_nat (S k).
Proof.
  assert (∀ (m : nat) n, 0 < n → n < 2 ^ N.of_nat m →
            ∃ k, 10 ^ N.of_nat k ≤ n ∧ n < 10 ^ N.of_nat (S k)) as Hind.
  { clear n. induction m as [|m IH]; intros n Hpos Hlt.
    { simpl in Hlt. lia. }
    destruct (decide (n < 10)) as [Hsmall|Hbig].
    { exists 0%nat. simpl. lia. }
    destruct (IH (n / 10)) as (k & Hlo & Hhi).
    - apply N.div_str_pos. lia.
    - rewrite Nat2N.inj_succ, N.pow_succ_r' in Hlt.
      apply N.Div0.div_lt_upper_bound. lia.
    - exists (S k). rewrite !Nat2N.inj_succ, !N.pow_succ_r' in *.
      pose proof (N.Div0.div_mod n 10) as Hdm.
      assert (n mod 10 < 10) as Hr by (apply N.mod_lt; lia).
      generalize dependent (10 ^ N.of_nat k). generalize dependent (n / 10).
      generalize dependent (n mod 10). intros. lia. }
  intros Hpos. apply (Hind (N.to_nat (N.succ (N.log2 n)))); [done|].
  rewrite N2Nat.id. by apply N.log2_spec.
Qed.

Lemma number_to_string_width n :
  ∃ k, number_to_string n = fixed_digits (S k) n "" ∧ n < 10 ^ N.of_nat (S k).
Proof.
  destruct (decide (n = 0)) as [->|Hne].
  - exists 0%nat. split; [done|]. simpl. lia.
  - destruct (width_exists n) as (k & Hlo & Hhi); [lia|].
    exists k. split; [by apply number_to_string_fixed|done].
Qed.

Lemma digit_is_digit d :
  d < 10 → 48 ≤ N_of_ascii (digit d) ∧ N_of_ascii (digit d) < 58.
Proof. intros Hd. rewrite digit_code by done. lia. Qed.

Lemma no_slash_cons c s : c ≠ "/"%char → no_slash s → no_slash (String c s).
Proof.
  unfold no_slash. intros Hc Hs. cbn [split].
  by rewrite decide_False, Hs.
Qed.

Lemma digit_not_slash d : d < 10 → digit d ≠ "/"%char.
Proof.
  intros Hd Heq. pose proof (digit_code d Hd) as Hcode.
  rewrite Heq in Hcode. simpl in Hcode. lia.
Qed.

Lemma no_slash_fixed_digits w n acc : no_slash acc → no_slash (fixed_digits w n acc).
Proof.
  revert n acc. induction w as [|w IH]; intros n acc Hacc; [done|].
  cbn [fixed_digits]. apply IH, no_slash_cons; [|done].
  apply digit_not_slash, N.mod_lt. lia.
Qed.

(** The name under which a chunk is stored is one plain segment as soon as
    the original name has no [/]. *)
Lemma filename_plain now originalname :
  no_slash originalname → plain (filename now originalname).
Proof.
  intros Hns. unfold filename.
  destruct (number_to_string_width now) as (k & -> & _).
  rewrite <- fixed_digits_app.
  assert (no_slash (fixed_digits (S k) now ("-" +:+ originalname))) as Hplain.
  { apply no_slash_fixed_digits. by apply no_slash_cons. }
  rewrite fixed_digits_head in *.
  assert (digit ((now / 10 ^ N.of_nat k) mod 10) ≠ "."%char) as Hdot.
  { intros Heq.
    destruct (digit_is_digit ((now / 10 ^ N.of_nat k) mod 10)) as [Hge _].
    { apply N.mod_lt. lia. }
    rewrite Heq in Hge. simpl in Hge. lia. }
  split_and!; [done| | |done]; intros [= ? _]; done.
Qed.

Lemma leading_number_fixed_digits w n acc v :
  leading_number (fixed_digits w n acc) v
  = leading_number acc (v * 10 ^ N.of_nat w + n mod 10 ^ N.of_nat w).
Proof.
  revert n acc v. induction w as [|w IH]; intros n acc v.
  - cbn. rewrite N.mod_1_r. f_equal. lia.
  - cbn [fixed_digits]. rewrite IH. cbn [leading_number].
    pose proof (N.mod_lt n 10) as Hr.
    rewrite decide_True by (apply digit_is_digit; lia).
    rewrite digit_code by lia. f_equal.
    rewrite Nat2N.inj_succ, N.pow_succ_r'.
    assert (10 ^ N.of_nat w ≠ 0) by (apply N.pow_nonzero; lia).
    rewrite (N.Div0.mod_mul_r n 10 (10 ^ N.of_nat w)).
    generalize ((n / 10) mod 10 ^ N.of_nat w) (10 ^ N.of_nat w).
    generalize dependent (n mod 10). intros. lia.
Qed.

(** Round trip: the arrival time and the original name can be read back
    from the name of the stored chunk. *)
Lemma leading_number_filename now originalname :
  leading_number (filename now originalname) 0 = (now, "-" +:+ originalname).
Proof.
  unfold filename. destruct (number_to_string_width now) as (k & -> & Hlt).
  rewrite <- fixed_digits_app, leading_number_fixed_digits.
  rewrite N.mod_small by done. done.
Qed.

Lemma filename_eq_inv now1 originalname1 now2 originalname2 :
  filename now1 originalname1 = filename now2 originalname2 →
  now1 = now2 ∧ originalname1 = originalname2.
Proof.
  intros Heq. apply (f_equal (λ s, leading_number s 0)) in Heq.
  rewrite !leading_number_filename in Heq. by simplify_eq.
Qed.

Lemma NoDup_chunk_files (uploads : list chunk) :
  NoDup (arrived <$> uploads) → NoDup (chunk_file <$> uploads).
Proof.
  induction uploads as [|c uploads IH]; [constructor|].
  rewrite !fmap_cons, !NoDup_cons. intros [Hnotin Hnd]. split; [|by apply IH].
  intros (c' & Heq & Hin)%list_elem_of_fmap. apply Hnotin.
  apply filename_eq_inv in Heq as [-> _]. by apply list_elem_of_fmap_2.
Qed.

(** X1.  Two uploads get the same file name only when they arrive in the same
    millisecond under the same original name; so chunks that arrive at
    different times never share a name. *)
Theorem filename_inj :
  (∀ now1 originalname1 now2 originalname2,
     filename now1 originalname1 = filename now2 originalname2 →
     now1 = now2 ∧ originalname1 = originalname2)
  ∧ ∀ uploads : list chunk,
      NoDup (arrived <$> uploads) → NoDup (chunk_file <$> uploads).
Proof. split; [apply filename_eq_inv|apply NoDup_chunk_files]. Qed.

Lemma filename_inj_witness : NoDup (chunk_file <$> [chunk_a; chunk_b; chunk_c]).
Proof.
  apply (proj2 filename_inj). apply (bool_decide_unpack _). evaluate.
Defined.

(** X2.  Sorting the names is not sorting the timestamps once these differ in
    width: of two timestamps the shorter one is the smaller number, but its
    name sorts last when its first digit is the larger. *)
Theorem sort_across_widths (k1 k2 : nat) (t1 t2 : N) (o1 o2 : string) :
  10 ^ N.of_nat k1 ≤ t1 → t1 < 10 ^ N.of_nat (S k1) →
  10 ^ N.of_nat k2 ≤ t2 → t2 < 10 ^ N.of_nat (S k2) →
  (k1 < k2)%nat →
  t2 / 10 ^ N.of_nat k2 < t1 / 10 ^ N.of_nat k1 →
  t1 < t2
  ∧ sort [filename t1 o1; filename t2 o2] = [filename t2 o2; filename t1 o1].
Proof.
  intros Hlo1 Hhi1 Hlo2 Hhi2 Hk Hlead.
  assert (10 ^ N.of_nat (S k1) ≤ 10 ^ N.of_nat k2) as Hpow.
  { apply N.pow_le_mono_r; lia. }
  split; [lia|].
  assert (String.compare (filename t2 o2) (filename t1 o1) = Lt) as Hcmp.
  { unfold filename.
    rewrite (number_to_string_fixed k1 t1), (number_to_string_fixed k2 t2) by done.
    rewrite <- !fixed_digits_app, !fixed_digits_head. cbn [String.compare].
    assert (10 ^ N.of_nat k1 ≠ 0) by (apply N.pow_nonzero; lia).
    assert (10 ^ N.of_nat k2 ≠ 0) by (apply N.pow_nonzero; lia).
    assert (t1 / 10 ^ N.of_nat k1 < 10) as H1.
    { apply N.Div0.div_lt_upper_bound.
      by rewrite Nat2N.inj_succ, N.pow_succ_r', N.mul_comm in Hhi1. }
    assert (t2 / 10 ^ N.of_nat k2 < 10) as H2.
    { apply N.Div0.div_lt_upper_bound.
      by rewrite Nat2N.inj_succ, N.pow_succ_r', N.mul_comm in Hhi2. }
    rewrite !N.mod_small by lia.
    rewrite digit_compare by lia.
    by apply N.compare_lt_iff in Hlead as ->. }
  unfold sort. apply (Sorted_unique String.le).
  - apply Sorted_merge_sort, _.
  - repeat constructor. by apply compare_lt_le.
  - rewrite merge_sort_Permutation. apply perm_swap.
Qed.

Lemma sort_across_widths_witness :
  sort [filename 9 "a.webm"; filename 10 "b.webm"]
  = [filename 10 "b.webm"; filename 9 "a.webm"].
Proof.
  apply (sort_across_widths 0 1 9 10 "a.webm" "b.webm");
    first [evaluate|apply (bool_decide_unpack _); evaluate|lia].
Defined.

(** ** More on the file system *)

Lemma NoDup_children (d : fs) dir : NoDup (children d dir).
Proof.
  unfold children.
  pose proof (NoDup_fst_map_to_list d) as Hnd.
  induction Hnd as [|key keys Hnotin _ IH]; [constructor|].
  cbn. destruct (child_of dir key) as [name|] eqn:Hc; [|done].
  constructor; [|done].
  intros Hin. apply list_elem_of_omap in Hin as (key' & Hin & Hc').
  apply child_of_Some in Hc, Hc'. congruence.
Qed.

Lemma child_key_ne dir (name : string) : dir ++ [name] ≠ dir.
Proof.
  intros Heq. apply (f_equal length) in Heq.
  rewrite length_app in Heq. simpl in Heq. lia.
Qed.

Lemma child_key_inj0 dir (n1 n2 : string) : dir ++ [n1] = dir ++ [n2] → n1 = n2.
Proof. intros Heq. apply (inj (app dir)) in Heq. by injection Heq. Qed.







(** ** [POST /upload/:videoId] *)




(** X4.  Into a directory that exists, an upload under an original name without
    [/] is always answered 200, unless its file name is taken by a
    directory; the disk afterwards is the disk before with the chunk under
    that name. *)
Theorem upload_into_directory {C : Collaborators} (videoId originalname : string)
    (data : list Byte.byte) (now : N) (w : world) :
  let videoDir := videoDir_of videoId in
  let chunk_path := segs videoDir ++ [filename now originalname] in
  no_slash originalname →
  disk w !! segs videoDir = Some Dir →
  disk w !! chunk_path ≠ Some Dir →
  post_upload videoId (Some (originalname, data)) now w
  = (respond 200 (Message "Video chunk uploaded successfully"),
     with_disk (<[chunk_path := File data]> (disk w)) w).
Proof.
  intros videoDir chunk_path Hns Hdir Hfree.
  pose proof (filename_plain now originalname Hns) as Hplain.
  unfold post_upload. fold videoDir.
  rewrite (path_join_plain videoDir _ Hplain).
  assert (existsSync (disk w) videoDir = true) as ->.
  { unfold existsSync, stat. by rewrite Hdir. }
  by rewrite write_file_child.
Qed.

Lemma upload_into_directory_witness :
  (post_upload (C := demo) alice_videoId (Some ("c.webm", bytes_of "second"))
     1700000000010 world_first_chunk).1
  = respond 200 (Message "Video chunk uploaded successfully").
Proof.
  rewrite (upload_into_directory (C := demo)); [reflexivity|evaluate|evaluate|].
  intros Hdir. vm_compute in Hdir. done.
Defined.



(** ** Cleaning up a directory *)

Lemma unlinkSync_Ok (d : fs) p d' :
  unlinkSync d p = Ok d' → d' = delete (segs p) d.
Proof.
  unfold unlinkSync, stat. intros Hu.
  destruct (d !! segs p) as [[]|]; [|done..].
  destruct (trailing p); by simplify_eq/=.
Qed.

Lemma unlink_each_keys (d : fs) p files d' o :
  unlink_each d p files = (d', o) →
  ∀ key, d' !! key = d !! key
         ∨ (d' !! key = None ∧ ∃ file, file ∈ files ∧ key = segs (path_join p [file])).
Proof.
  revert d. induction files as [|file files IH]; intros d Hu key.
  - simplify_eq/=. by left.
  - cbn [unlink_each] in Hu.
    destruct (unlinkSync d (path_join p [file])) as [d1|e] eqn:Hone.
    + apply unlinkSync_Ok in Hone as ->.
      destruct (IH _ Hu key) as [Heq|(Hnone & f & Hf & ->)].
      * destruct (decide (key = segs (path_join p [file]))) as [->|Hne].
        -- right. rewrite Heq, lookup_delete_eq. split; [done|].
           exists file. split; [by left|done].
        -- left. by rewrite Heq, lookup_delete_ne.
      * right. split; [done|]. exists f. split; [by right|done].
    + simplify_eq. by left.
Qed.

Lemma remove_video_dir_keys (d : fs) p d' o :
  remove_video_dir d p = (d', o) →
  ∀ key, d' !! key = d !! key
         ∨ (d' !! key = None
            ∧ (key = segs p
               ∨ ∃ file, file ∈ children d (segs p) ∧ key = segs (path_join p [file]))).
Proof.
  unfold remove_video_dir. intros Hr key.
  destruct (readdirSync d p) as [files|e] eqn:Hls; [|simplify_eq; by left].
  apply readdirSync_Ok in Hls as [_ ->].
  destruct (unlink_each d p (children d (segs p))) as [d1 [e|]] eqn:Hu.
  - simplify_eq. destruct (unlink_each_keys _ _ _ _ _ Hu key) as [?|[? ?]]; auto.
  - destruct (rmdirSync d1 p) as [d2|e] eqn:Hrm; simplify_eq.
    + apply rmdirSync_Ok in Hrm as [-> _].
      destruct (decide (key = segs p)) as [->|Hne].
      * right. rewrite lookup_delete_eq. auto.
      * rewrite lookup_delete_ne by done.
        destruct (unlink_each_keys _ _ _ _ _ Hu key) as [?|[? ?]]; auto.
    + destruct (unlink_each_keys _ _ _ _ _ Hu key) as [?|[? ?]]; auto.
Qed.

Lemma unlink_each_files (d : fs) p files :
  NoDup files → Forall plain files →
  (∀ file, file ∈ files → ∃ data, d !! (segs p ++ [file]) = Some (File data)) →
  ∃ d', unlink_each d p files = (d', None)
        ∧ (∀ file, file ∈ files → d' !! (segs p ++ [file]) = None)
        ∧ (∀ key, (∀ file, file ∈ files → key ≠ segs p ++ [file]) → d' !! key = d !! key).
Proof.
  intros Hnd Hplain. revert d.
  induction Hnd as [|file files Hnotin Hnd IH]; intros d Hfiles.
  - exists d. split_and!; [done| |done]. intros file Hin. by apply elem_of_nil in Hin.
  - apply Forall_cons in Hplain as [Hplain1 Hplain].
    destruct (Hfiles file) as [data Hdata]; [by left|].
    cbn [unlink_each]. rewrite (path_join_plain p file Hplain1).
    unfold unlinkSync, stat at 1. cbn [segs trailing]. rewrite Hdata. cbn.
    destruct (IH Hplain (delete (segs p ++ [file]) d)) as (d' & Hu & Hgone & Hrest).
    { intros f Hf. destruct (Hfiles f) as [data' Hdata']; [by right|].
      exists data'. rewrite lookup_delete_ne; [done|].
      intros Heq. apply child_key_inj0 in Heq. by subst. }
    exists d'. split_and!; [done| |].
    + intros f [->|Hf]%elem_of_cons; [|by apply Hgone].
      rewrite Hrest; [apply lookup_delete_eq|].
      intros f Hf Heq. apply child_key_inj0 in Heq. by subst.
    + intros key Hkey. rewrite Hrest.
      * apply lookup_delete_ne. intros Heq. by apply (Hkey file); [left|].
      * intros f Hf. apply Hkey. by right.
Qed.

(** A directory that holds regular files only, under plain names, is
    emptied and removed without an error, and nothing else changes. *)
Lemma remove_video_dir_files (d : fs) p :
  d !! segs p = Some Dir → segs p ≠ [] →
  Forall plain (children d (segs p)) →
  (∀ file, file ∈ children d (segs p) →
           ∃ data, d !! (segs p ++ [file]) = Some (File data)) →
  ∃ d', remove_video_dir d p = (d', None)
        ∧ d' !! segs p = None
        ∧ (∀ name, d' !! (segs p ++ [name]) = None)
        ∧ (∀ key, key ≠ segs p → (∀ name, key ≠ segs p ++ [name]) →
                  d' !! key = d !! key).
Proof.
  intros Hdir Hroot Hplain Hfiles.
  destruct (unlink_each_files d p (children d (segs p)))
    as (d1 & Hu & Hgone & Hrest); [apply NoDup_children|done..|].
  assert (d1 !! segs p = Some Dir) as Hdir1.
  { rewrite Hrest; [done|]. intros file _ Heq. symmetry in Heq.
    by apply child_key_ne in Heq. }
  assert (∀ name, d1 !! (segs p ++ [name]) = None) as Hempty.
  { intros name. destruct (decide (name ∈ children d (segs p))) as [Hin|Hnin].
    - by apply Hgone.
    - rewrite Hrest.
      + apply eq_None_not_Some. intros Hsome. by apply Hnin, children_spec.
      + intros file Hfile Heq. apply child_key_inj0 in Heq. by subst. }
  assert (children d1 (segs p) = []) as Hnil.
  { apply elem_of_nil_inv. intros name Hin.
    apply children_spec in Hin. rewrite Hempty in Hin. by destruct Hin. }
  exists (delete (segs p) d1). split_and!.
  - unfold remove_video_dir, readdirSync. rewrite Hdir, Hu.
    unfold rmdirSync, stat. rewrite Hdir1. cbn.
    by rewrite decide_False, decide_True.
  - apply lookup_delete_eq.
  - intros name. rewrite lookup_delete_ne; [done|].
    intros Heq. symmetry in Heq. by apply child_key_ne in Heq.
  - intros key Hne Hchild. rewrite lookup_delete_ne by done.
    apply Hrest. intros file _. apply Hchild.
Qed.

Lemma plain_child_prefix p file :
  plain file → segs p `prefix_of` segs (path_join p [file]).
Proof. intros Hplain. rewrite (path_join_plain p file Hplain). by apply prefix_app_r. Qed.

(** X6.  Whatever its outcome, delete-video creates and rewrites nothing: every
    path is bound as before or is gone, and the collection is untouched.
    When the entries of the directory have plain names, what is gone lies in
    the directory of the videoId. *)
Theorem deleteVideo_only_removes {C : Collaborators} (videoId : string) (w : world) :
  let w' := (delete_deleteVideo videoId w).2 in
  doctors w' = doctors w
  ∧ (∀ key, disk w' !! key = disk w !! key ∨ disk w' !! key = None)
  ∧ (Forall plain (children (disk w) (segs (videoDir_of videoId))) →
     ∀ key, ¬ segs (videoDir_of videoId) `prefix_of` key →
            disk w' !! key = disk w !! key).
Proof.
  unfold delete_deleteVideo.
  destruct (existsSync (disk w) (videoDir_of videoId)); [|by auto].
  destruct (remove_video_dir (disk w) (videoDir_of videoId)) as [d o] eqn:Hrm.
  pose proof (remove_video_dir_keys _ _ _ _ Hrm) as Hkeys.
  assert (∀ key, d !! key = disk w !! key ∨ d !! key = None) as Honly.
  { intros key. destruct (Hkeys key) as [?|[? _]]; auto. }
  assert (Forall plain (children (disk w) (segs (videoDir_of videoId))) →
          ∀ key, ¬ segs (videoDir_of videoId) `prefix_of` key →
                 d !! key = disk w !! key) as Hframe.
  { intros Hplain key Hout.
    destruct (Hkeys key) as [?|(_ & [->|(file & Hfile & ->)])]; [done|..].
    - by destruct Hout.
    - destruct Hout. apply plain_child_prefix.
      by eapply Forall_forall in Hplain. }
  by destruct o.
Qed.

Lemma deleteVideo_only_removes_witness :
  let cleaned := (delete_deleteVideo (C := demo) alice_videoId world_nested).2 in
  status <$> (delete_deleteVideo (C := demo) alice_videoId world_nested).1
  = Some 500%nat
  ∧ disk cleaned !! ["srv"; "app"] = disk world_nested !! ["srv"; "app"].
Proof.
  intros cleaned. split; [evaluate|].
  destruct (deleteVideo_only_removes (C := demo) alice_videoId world_nested)
    as (_ & _ & Hframe).
  apply Hframe; apply (bool_decide_unpack _); evaluate.
Defined.

(** X7.  On a directory that holds regular files only, under plain names,
    delete-video answers 200 and removes the directory and its entries,
    these and nothing else. *)
Theorem deleteVideo_removes_files {C : Collaborators} (videoId : string) (w : world) :
  let videoDir := videoDir_of videoId in
  disk w !! segs videoDir = Some Dir → segs videoDir ≠ [] →
  Forall plain (children (disk w) (segs videoDir)) →
  (∀ file, file ∈ children (disk w) (segs videoDir) →
           ∃ data, disk w !! (segs videoDir ++ [file]) = Some (File data)) →
  ∃ w',
    delete_deleteVideo videoId w
    = (respond 200 (Message "All video files deleted successfully"), w')
    ∧ disk w' !! segs videoDir = None
    ∧ (∀ name, disk w' !! (segs videoDir ++ [name]) = None)
    ∧ (∀ key, key ≠ segs videoDir → (∀ name, key ≠ segs videoDir ++ [name]) →
              disk w' !! key = disk w !! key)
    ∧ doctors w' = doctors w
    ∧ console w' = console w.
Proof.
  intros videoDir Hdir Hroot Hplain Hfiles.
  destruct (remove_video_dir_files (disk w) videoDir Hdir Hroot Hplain Hfiles)
    as (d' & Hrm & Hgone & Hempty & Hrest).
  exists (with_disk d' w). unfold delete_deleteVideo. fold videoDir.
  assert (existsSync (disk w) videoDir = true) as ->.
  { unfold existsSync, stat. by rewrite Hdir. }
  rewrite Hrm. by split_and!.
Qed.

Lemma deleteVideo_removes_files_witness :
  ∃ w',
    delete_deleteVideo (C := demo) alice_videoId world_uploaded
    = (respond 200 (Message "All video files deleted successfully"), w')
    ∧ disk w' !! segs (videoDir_of (C := demo) alice_videoId) = None
    ∧ disk w' !! ["srv"; "app"; "videos"] = Some Dir.
Proof.
  destruct (deleteVideo_removes_files (C := demo) alice_videoId world_uploaded)
    as (w' & Hdel & Hgone & _ & Hrest & _).
  - evaluate.
  - done.
  - apply (bool_decide_unpack _). evaluate.
  - apply files_of_uploaded.
  - exists w'. split_and!; [exact Hdel|exact Hgone|].
    rewrite Hrest; [evaluate|done|].
    intros name Heq. by vm_compute in Heq.
Defined.

(** X8.  Deleting a doctor of variant B whose directory holds regular files only
    answers 200 and removes the document, the directory and its entries. *)
Theorem delete_doctor_removes_files {C : Collaborators} (id oid videoId : string)
    (stored : gmap string jvalue) (w : world) :
  let videoDir := videoDir_of videoId in
  cast_object_id (JStr id) = Some oid →
  doctors w !! oid = Some stored →
  stored !! "videoId" = Some (JStr videoId) →
  disk w !! segs videoDir = Some Dir → segs videoDir ≠ [] →
  Forall plain (children (disk w) (segs videoDir)) →
  (∀ file, file ∈ children (disk w) (segs videoDir) →
           ∃ data, disk w !! (segs videoDir ++ [file]) = Some (File data)) →
  ∃ w',
    VariantB.delete_doctors id w
    = (respond 200 (Message "Doctor and related video files deleted successfully"), w')
    ∧ doctors w' = delete oid (doctors w)
    ∧ disk w' !! segs videoDir = None
    ∧ (∀ name, disk w' !! (segs videoDir ++ [name]) = None)
    ∧ (∀ key, key ≠ segs videoDir → (∀ name, key ≠ segs videoDir ++ [name]) →
              disk w' !! key = disk w !! key).
Proof.
  intros videoDir Hcast Hdoc Hvid Hdir Hroot Hplain Hfiles.
  destruct (remove_video_dir_files (disk w) videoDir Hdir Hroot Hplain Hfiles)
    as (d' & Hrm & Hgone & Hempty & Hrest).
  exists (with_disk d' (with_doctors (delete oid (doctors w)) w)).
  unfold VariantB.delete_doctors, findByIdAndDelete. rewrite Hcast, Hdoc.
  rewrite doc_get_schema_path by apply videoId_in_schema.
  cbn [hydrate doc_fields disk with_doctors]. rewrite Hvid. fold videoDir.
  assert (existsSync (disk w) videoDir = true) as ->.
  { unfold existsSync, stat. by rewrite Hdir. }
  rewrite Hrm. by split_and!.
Qed.

Lemma delete_doctor_removes_files_witness :
  ∃ w',
    VariantB.delete_doctors (C := demo) alice_id world_uploaded
    = (respond 200 (Message "Doctor and related video files deleted successfully"), w')
    ∧ doctors w' !! alice_id = None
    ∧ disk w' !! segs (videoDir_of (C := demo) alice_videoId) = None.
Proof.
  destruct (delete_doctor_removes_files (C := demo) alice_id alice_id alice_videoId
              alice_stored world_uploaded) as (w' & Hdel & Hdocs & Hgone & _).
  - evaluate.
  - evaluate.
  - evaluate.
  - evaluate.
  - done.
  - apply (bool_decide_unpack _). evaluate.
  - apply files_of_uploaded.
  - exists w'. split_and!; [exact Hdel| |exact Hgone].
    rewrite Hdocs. apply lookup_delete_eq.
Defined.

(** X9.  [DELETE /doctors/:id] leaves every other document alone, in both
    variants and whatever the outcome; an identifier that matches no doctor
    is answered 404 with the world unchanged, and one that cannot be cast is
    answered 500 with the collection and the disk unchanged. *)
Theorem delete_doctor_other_documents {C : Collaborators} (id : string) (w : world) :
  (∀ other, cast_object_id (JStr id) ≠ Some other →
     doctors (VariantB.delete_doctors id w).2 !! other = doctors w !! other
     ∧ ∀ destroy,
         doctors (VariantA.delete_doctors id destroy w).2 !! other = doctors w !! other)
  ∧ (∀ oid, cast_object_id (JStr id) = Some oid → doctors w !! oid = None →
       VariantB.delete_doctors id w = (respond 404 (Message "Doctor not found"), w)
       ∧ ∀ destroy,
           VariantA.delete_doctors id destroy w
           = (respond 404 (Message "Doctor not found"), w))
  ∧ (cast_object_id (JStr id) = None →
     let w' := logged (console_error "Error deleting doctor:" (CastError "_id")) w in
     VariantB.delete_doctors id w = (respond 500 (ServerError (CastError "_id")), w')
     ∧ ∀ destroy,
         VariantA.delete_doctors id destroy w
         = (respond 500 (ServerError (CastError "_id")), w')).
Proof.
  split_and!.
  - intros other Hother.
    assert (∀ doctor c, findByIdAndDelete id (doctors w) = Ok (doctor, c) →
                        c !! other = doctors w !! other) as Hc.
    { unfold findByIdAndDelete. intros doctor c Hfind.
      destruct (cast_object_id (JStr id)) as [oid|]; [|done].
      destruct (doctors w !! oid); simplify_eq; [|done].
      apply lookup_delete_ne. congruence. }
    split; [|intros destroy].
    + unfold VariantB.delete_doctors.
      destruct (findByIdAndDelete id (doctors w)) as [[[doctor|] c]|e] eqn:Hf;
        [|done..].
      specialize (Hc _ _ eq_refl). repeat case_match; done.
    + unfold VariantA.delete_doctors.
      destruct (findByIdAndDelete id (doctors w)) as [[[doctor|] c]|e] eqn:Hf;
        [|done..].
      specialize (Hc _ _ eq_refl). repeat case_match; done.
  - intros oid Hcast Hnone.
    unfold VariantB.delete_doctors, VariantA.delete_doctors, findByIdAndDelete.
    by rewrite Hcast, Hnone.
  - intros Hcast w'.
    unfold VariantB.delete_doctors, VariantA.delete_doctors, findByIdAndDelete.
    by rewrite Hcast.
Qed.

Lemma delete_doctor_other_documents_witness :
  VariantB.delete_doctors (C := demo) bob_id world_alice
  = (respond 404 (Message "Doctor not found"), world_alice).
Proof.
  destruct (delete_doctor_other_documents (C := demo) bob_id world_alice)
    as (_ & Hunknown & _).
  apply (Hunknown bob_id); evaluate.
Defined.

(** ** Finalize, whatever its outcome *)

Lemma join_chunks_keys (d : fs) videoDir outputFilePath :
  match join_chunks d videoDir outputFilePath with
  | NoChunks | StreamError _ => True
  | Failed _ d' | Finished d' =>
      ∀ key, key ≠ segs outputFilePath → d' !! key = d !! key
  end.
Proof.
  unfold join_chunks.
  destruct (webm_files d videoDir) as [files|e]; [|done].
  case_decide; [done|].
  destruct (write_chunks d videoDir files []) as [written [e|]];
    destruct (write_file d outputFilePath (mjoin written)) as [d'|e'] eqn:Hw;
    try done;
    apply write_file_Ok in Hw as [_ ->]; intros key Hkey;
    by rewrite lookup_insert_ne.
Qed.

(** X10.  No finalize writes to the collection, in either variant and whatever
    the answer; on the disk nothing but the output file of the call changes,
    and an answer 400 leaves the world as it was. *)
Theorem finishUpload_frame {C : Collaborators} (videoId : string) (w : world) :
  (let w' := (VariantB.post_finishUpload videoId w).2 in
   doctors w' = doctors w
   ∧ (∀ key, key ≠ segs (path_join (videoDir_of videoId) ["final_video.webm"]) →
             disk w' !! key = disk w !! key))
  ∧ (∀ upload_reply,
       let w' := (VariantA.post_finishUpload videoId upload_reply w).2 in
       doctors w' = doctors w
       ∧ (∀ key, key ≠ segs (path_join (videoDir_of videoId) [videoId +:+ ".webm"]) →
                 disk w' !! key = disk w !! key))
  ∧ (∀ r w', VariantB.post_finishUpload videoId w = (Some r, w') →
             status r = 400%nat → w' = w)
  ∧ (∀ upload_reply r w',
       VariantA.post_finishUpload videoId upload_reply w = (Some r, w') →
       status r = 400%nat → w' = w).
Proof.
  split_and!.
  - unfold VariantB.post_finishUpload.
    pose proof (join_chunks_keys (disk w) (videoDir_of videoId)
                  (path_join (videoDir_of videoId) ["final_video.webm"])) as Hkeys.
    by destruct (join_chunks _ _ _).
  - intros upload_reply. unfold VariantA.post_finishUpload.
    pose proof (join_chunks_keys (disk w) (videoDir_of videoId)
                  (path_join (videoDir_of videoId) [videoId +:+ ".webm"])) as Hkeys.
    destruct (join_chunks _ _ _) as [|e d|e|d]; [done..|].
    unfold VariantA.on_finish. cbn [disk doctors with_disk].
    destruct upload_reply as [secure_url|e]; [|done].
    destruct (unlinkSync d _) as [d'|e] eqn:Hu; [|done].
    apply unlinkSync_Ok in Hu as ->.
    assert (∀ key, key ≠ segs (path_join (videoDir_of videoId) [videoId +:+ ".webm"]) →
                   delete (segs (path_join (videoDir_of videoId) [videoId +:+ ".webm"])) d
                     !! key = disk w !! key) as Hd.
    { intros key Hkey. rewrite lookup_delete_ne by done. by apply Hkeys. }
    destruct (findOne_videoId videoId (doctors w)) as [doctor|] eqn:Hdoc; [|done].
    apply findOne_videoId_hydrate in Hdoc as (stored & Hloaded & _ & _).
    rewrite Hloaded, save_after_set_videoUrl. done.
  - intros r w' Hfin Hst. unfold VariantB.post_finishUpload in Hfin.
    destruct (join_chunks _ _ _); by outcome.
  - intros upload_reply r w' Hfin Hst. unfold VariantA.post_finishUpload in Hfin.
    destruct (join_chunks _ _ _) as [|e d|e|d]; [by outcome..|].
    unfold VariantA.on_finish in Hfin. repeat case_match; by outcome.
Qed.

Lemma finishUpload_frame_witness :
  (VariantB.post_finishUpload (C := demo) alice_videoId world_notes).2 = world_notes.
Proof.
  destruct (finishUpload_frame (C := demo) alice_videoId world_notes)
    as (_ & _ & Hkeep & _).
  apply (Hkeep {| status := 400; json := Message "No video chunks found" |});
    [apply outcome_eq; evaluate|reflexivity].
Defined.

(** ** Validation *)

Lemma doctorValidationSchema_None {C : Collaborators} (obj : gmap string jvalue) :
  doctorValidationSchema obj = None
  ↔ (∃ name, obj !! "name" = Some (JStr name) ∧ name ≠ "")
    ∧ (∃ email, obj !! "email" = Some (JStr email) ∧ email ≠ ""
                ∧ valid_email email = true).
Proof.
  unfold doctorValidationSchema, string_required. split.
  - destruct (obj !! "name") as [[| | |name| |]|]; try done.
    case_decide as Hname; [done|]. cbn.
    destruct (obj !! "email") as [[| | |email| |]|]; try done.
    case_decide as Hemail; [done|].
    destruct (valid_email email) eqn:Hrule; [|done].
    intros _. split; eauto.
  - intros [(name & -> & Hname) (email & -> & Hemail & Hrule)].
    by rewrite !decide_False, Hrule by done.
Qed.

(** X11.  The validation accepts exactly the payloads whose [name] is a string
    that is not empty and whose [email] is a string that is not empty and
    passes the email rule; whatever else the payload has, an [age] or a
    [videoId], does not matter. *)
Theorem validation_accepts {C : Collaborators} (obj extra : gmap string jvalue) :
  (doctorValidationSchema obj = None
   ↔ (∃ name, obj !! "name" = Some (JStr name) ∧ name ≠ "")
     ∧ (∃ email, obj !! "email" = Some (JStr email) ∧ email ≠ ""
                 ∧ valid_email email = true))
  ∧ (extra !! "name" = None → extra !! "email" = None →
     doctorValidationSchema (obj ∪ extra) = doctorValidationSchema obj).
Proof.
  split; [apply doctorValidationSchema_None|].
  intros Hname Hemail. unfold doctorValidationSchema, string_required.
  rewrite !lookup_union, Hname, Hemail.
  by destruct (obj !! "name"), (obj !! "email").
Qed.

Lemma validation_accepts_witness :
  doctorValidationSchema (C := demo) (alice ∪ age_only) = None.
Proof.
  destruct (validation_accepts (C := demo) alice age_only) as [Hiff Hextra].
  rewrite Hextra by evaluate. apply Hiff.
  split; [exists "Alice"|exists "a@x.com"]; split_and!;
    first [evaluate|discriminate].
Defined.

(** X12.  A payload that the validation does not accept is answered 400 by create
    and by update alike, with the same message, and the world stays as it
    was: nothing is persisted.  When [name] is at fault the message is about
    [name], whatever the email is. *)
Theorem invalid_payload_rejected {C : Collaborators} (obj : gmap string jvalue) :
  ¬ ((∃ name, obj !! "name" = Some (JStr name) ∧ name ≠ "")
     ∧ (∃ email, obj !! "email" = Some (JStr email) ∧ email ≠ ""
                 ∧ valid_email email = true)) →
  ∃ e,
    (∀ uuid fresh_id w,
       post_doctors obj uuid fresh_id w = (respond 400 (ValidationMessage e), w))
    ∧ (∀ id w, put_doctors id obj w = (respond 400 (ValidationMessage e), w))
    ∧ (¬ (∃ name, obj !! "name" = Some (JStr name) ∧ name ≠ "") →
       e = any_required "name" ∨ e = string_base "name" ∨ e = string_empty "name").
Proof.
  intros Hbad. rewrite <- doctorValidationSchema_None in Hbad.
  destruct (doctorValidationSchema obj) as [e|] eqn:Hv; [|done].
  exists e. split_and!.
  - intros uuid fresh_id w. unfold post_doctors. by rewrite Hv.
  - intros id w. unfold put_doctors. by rewrite Hv.
  - intros Hname. unfold doctorValidationSchema, string_required in Hv.
    destruct (obj !! "name") as [[| | |name| |]|]; simplify_eq/=; auto.
    case_decide; simplify_eq/=; auto.
    destruct Hname. eauto.
Qed.

Lemma invalid_payload_rejected_witness :
  post_doctors (C := demo) only_email alice_videoId alice_id world0
  = (respond 400 (ValidationMessage (any_required "name")), world0).
Proof.
  destruct (invalid_payload_rejected (C := demo) only_email) as (e & Hpost & _).
  { intros [(name & Hname & _) _]. vm_compute in Hname. done. }
  rewrite Hpost. do 3 f_equal.
  specialize (Hpost alice_videoId alice_id world0).
  apply (f_equal fst) in Hpost. vm_compute in Hpost. by injection Hpost as <-.
Defined.

(** ** Writing to the collection *)







Lemma post_doctors_fresh {C : Collaborators}
    (req_body : gmap string jvalue) (uuid fresh_id : string) (w : world) :
  doctorValidationSchema req_body = None →
  req_body !! "_id" = None →
  (∀ p v, p ∈ DoctorSchema → req_body !! p = Some v → ∃ s, v = JStr s) →
  doctors w !! fresh_id = None →
  ∃ stored : gmap string jvalue,
    post_doctors req_body uuid fresh_id w
    = (respond 201 (DoctorJson (Some (fresh_id, stored))),
       with_doctors (<[fresh_id := stored]> (doctors w)) w)
    ∧ stored !! "videoId" = Some (JStr uuid).
Proof.
  intros Hvalid Hid Hstr Hfree.
  destruct (cast_paths_strings DoctorSchema (<["videoId" := JStr uuid]> req_body))
    as (stored & Hcast & Hlook).
  { intros p v Hp. destruct (decide (p = "videoId")) as [->|Hne].
    - rewrite lookup_insert_eq. intros [= <-]. by eexists.
    - rewrite lookup_insert_ne by done. by apply Hstr. }
  exists stored. split.
  - unfold post_doctors. rewrite Hvalid.
    unfold new_Doctor, cast_id, cast_fields.
    rewrite lookup_insert_ne, Hid, Hcast by done.
    unfold save. cbn. by rewrite Hfree.
  - rewrite Hlook, decide_True by apply videoId_in_schema.
    apply lookup_insert_eq.
Qed.

(** X15.  Round trip: a doctor that was just created, and whose directory does not
    exist yet, is deleted under the identifier of the created record with
    the answer 200, and the world is again what it was before the creation,
    but for the line that the deletion logs. *)
Theorem create_then_delete {C : Collaborators}
    (req_body : gmap string jvalue) (uuid fresh_id : string) (w : world) :
  doctorValidationSchema req_body = None →
  req_body !! "_id" = None →
  (∀ p v, p ∈ DoctorSchema → req_body !! p = Some v → ∃ s, v = JStr s) →
  doctors w !! fresh_id = None →
  cast_object_id (JStr fresh_id) = Some fresh_id →
  existsSync (disk w) (videoDir_of uuid) = false →
  VariantB.delete_doctors fresh_id (post_doctors req_body uuid fresh_id w).2
  = (respond 200 (Message "Doctor and related video files deleted successfully"),
     logged (console_log "no dir") w).
Proof.
  intros Hvalid Hid Hstr Hfree Hcast Hnodir.
  destruct (post_doctors_fresh req_body uuid fresh_id w) as (stored & -> & Hvid);
    [done..|].
  unfold VariantB.delete_doctors, findByIdAndDelete. cbn [snd doctors with_doctors].
  rewrite Hcast, lookup_insert_eq.
  rewrite doc_get_schema_path by apply videoId_in_schema.
  cbn [hydrate doc_fields disk with_doctors]. rewrite Hvid, Hnodir.
  rewrite delete_insert_eq, delete_id by done. by destruct w.
Qed.

Lemma create_then_delete_witness :
  VariantB.delete_doctors (C := demo) alice_id world_alice
  = (respond 200 (Message "Doctor and related video files deleted successfully"),
     logged (console_log "no dir") world0).
Proof.
  apply (create_then_delete (C := demo) alice alice_videoId alice_id world0);
    [evaluate..|apply strings_on_schema; evaluate|evaluate|evaluate|evaluate].
Defined.

(** ** CORS *)

Lemma string_app_length (s1 s2 : string) :
  String.length (s1 +:+ s2) = (String.length s1 + String.length s2)%nat.
Proof. induction s1 as [|c s1 IH]; [done|]. cbn. by rewrite <- IH. Qed.

(** X16.  A request without Origin header passes whatever the configuration is.
    A request with an origin that is not empty passes exactly when this
    origin is the configured frontend URL, character by character: with the
    frontend URL not set none passes, and the configured URL followed by a
    slash does not pass. *)
Theorem cors_origin_exact {E : Environment} :
  cors_origin None = true
  ∧ (∀ origin, origin ≠ "" →
       (cors_origin (Some origin) = true ↔ FRONT_END_URL = Some origin))
  ∧ (∀ origin, FRONT_END_URL = Some origin →
       cors_origin (Some (origin +:+ "/")) = false).
Proof.
  assert (∀ origin, origin ≠ "" →
            (cors_origin (Some origin) = true ↔ FRONT_END_URL = Some origin)) as Hexact.
  { intros origin Hne. unfold cors_origin, allowedOrigins.
    rewrite bool_decide_eq_false_2 by done. cbn.
    rewrite bool_decide_eq_true, list_elem_of_singleton. naive_solver. }
  split_and!; [done|done|].
  intros origin Hfront.
  destruct (cors_origin (Some (origin +:+ "/"))) eqn:Hcors; [|done].
  apply Hexact in Hcors.
  - rewrite Hfront in Hcors. injection Hcors as Heq.
    apply (f_equal String.length) in Heq.
    rewrite string_app_length in Heq. simpl in Heq. lia.
  - intros Heq. apply (f_equal String.length) in Heq.
    rewrite string_app_length in Heq. simpl in Heq. lia.
Qed.

Lemma cors_origin_exact_witness :
  cors_origin (E := demo_env) (Some "https://doctors.example") = true
  ∧ cors_origin (E := demo_env) (Some "https://doctors.example/") = false.
Proof.
  destruct (cors_origin_exact (E := demo_env)) as (_ & Hexact & Hslash).
  split.
  - apply Hexact; [discriminate|reflexivity].
  - apply (Hslash "https://doctors.example"). reflexivity.
Defined.

(** ** [GET /doctors] *)

Lemma mapM_result_Ok {A B} (f : A → result B) (l : list A) (k : list B) :
  mapM f l = Ok k ↔ Forall2 (λ x y, f x = Ok y) l k.
Proof.
  split.
  - revert k. induction l as [|x l IH]; intros k Hm.
    + cbn in Hm. injection Hm as <-. constructor.
    + cbn in Hm. destruct (f x) as [y|e] eqn:Hx; [|done]. cbn in Hm.
      destruct (mapM f l) as [k'|e] eqn:Hl; [|done]. cbn in Hm.
      injection Hm as <-. constructor; [done|by apply IH].
  - induction 1 as [|x y l k Hx _ IH]; [done|].
    cbn. rewrite Hx. cbn. by rewrite IH.
Qed.

Lemma mapM_result_Throw {A B} (f : A → result B) (l : list A) x e :
  x ∈ l → f x = Throw e → (∀ y e', f y = Throw e' → e' = e) →
  mapM f l = Throw e.
Proof.
  intros Hin Hx Hsame. induction l as [|y l IH]; [by apply elem_of_nil in Hin|].
  cbn. destruct (f y) as [z|e'] eqn:Hy.
  - cbn. apply elem_of_cons in Hin as [->|Hin]; [congruence|].
    by rewrite IH.
  - cbn. f_equal. by eapply Hsame.
Qed.

Lemma updated_doctor_Ok {C : Collaborators} {E : Environment} (d : fs) entry item :
  VariantB.updated_doctor d entry = Ok item ↔
  ∃ videoId,
    entry.2 !! "videoId" = Some (JStr videoId)
    ∧ item = {| listed_id := entry.1; listed_fields := entry.2;
                videoUrl :=
                  if existsSync d (path_join (videoDir_of videoId) ["final_video.webm"])
                  then Some (template BACK_END_URL +:+ "/videos/" +:+ videoId
                             +:+ "/final_video.webm")
                  else None |}.
Proof.
  unfold VariantB.updated_doctor.
  rewrite doc_get_schema_path by apply videoId_in_schema. cbn [hydrate doc_fields doc_id].
  split.
  - destruct (entry.2 !! "videoId") as [[| | |videoId| |]|]; try done.
    intros [= <-]. by exists videoId.
  - intros (videoId & -> & ->). done.
Qed.

(** X17.  In variant B, when every stored doctor has a string for [videoId], the
    list is answered 200 without changing the world; it has one element per
    stored doctor, with the identifier and the fields of the document, and
    the [videoUrl] of an element is the URL of [final_video.webm] under the
    backend URL when that file exists in the directory of the doctor, and
    [null] when it does not. *)
Theorem get_doctors_lists_every_doctor {C : Collaborators} {E : Environment}
    (w : world) :
  (∀ id stored, doctors w !! id = Some stored →
                ∃ videoId, stored !! "videoId" = Some (JStr videoId)) →
  ∃ updatedDoctors,
    VariantB.get_doctors w = (Listed updatedDoctors, w)
    ∧ Forall2 (λ entry item,
                 listed_id item = entry.1 ∧ listed_fields item = entry.2
                 ∧ ∃ videoId,
                     entry.2 !! "videoId" = Some (JStr videoId)
                     ∧ videoUrl item
                       = if existsSync (disk w)
                              (path_join (videoDir_of videoId) ["final_video.webm"])
                         then Some (template BACK_END_URL +:+ "/videos/" +:+ videoId
                                    +:+ "/final_video.webm")
                         else None)
              (map_to_list (doctors w)) updatedDoctors
    ∧ ∀ id stored, doctors w !! id = Some stored ↔
                   ∃ item, item ∈ updatedDoctors
                           ∧ listed_id item = id ∧ listed_fields item = stored.
Proof.
  intros Hall. unfold VariantB.get_doctors.
  assert (Forall (λ entry, ∃ item, VariantB.updated_doctor (disk w) entry = Ok item)
                 (map_to_list (doctors w))) as Hok.
  { apply Forall_forall. intros [id stored] Hin%elem_of_map_to_list.
    destruct (Hall id stored Hin) as [videoId Hvid].
    eexists. apply updated_doctor_Ok. by exists videoId. }
  destruct (mapM (VariantB.updated_doctor (disk w)) (map_to_list (doctors w)))
    as [l|e] eqn:Hm.
  - apply mapM_result_Ok in Hm.
    assert (Forall2 (λ entry item,
                 listed_id item = entry.1 ∧ listed_fields item = entry.2
                 ∧ ∃ videoId,
                     entry.2 !! "videoId" = Some (JStr videoId)
                     ∧ videoUrl item
                       = if existsSync (disk w)
                              (path_join (videoDir_of videoId) ["final_video.webm"])
                         then Some (template BACK_END_URL +:+ "/videos/" +:+ videoId
                                    +:+ "/final_video.webm")
                         else None)
              (map_to_list (doctors w)) l) as Hrel.
    { eapply Forall2_impl; [exact Hm|]. intros entry item Hitem. cbn in Hitem.
      apply updated_doctor_Ok in Hitem as (videoId & Hvid & ->). cbn. eauto. }
    exists l. split_and!; [done..|].
    intros id stored. rewrite <- elem_of_map_to_list. split.
    + intros Hin. apply list_elem_of_lookup in Hin as [i Hi].
      destruct (Forall2_lookup_l _ _ _ _ _ Hrel Hi) as (item & Hitem & Hid & Hf & _).
      exists item. split; [by eapply list_elem_of_lookup_2|done].
    + intros (item & Hin & <- & <-). apply list_elem_of_lookup in Hin as [i Hi].
      destruct (Forall2_lookup_r _ _ _ _ _ Hrel Hi) as ([id stored] & Hentry & Hid & Hf & _).
      cbn in *. subst. by eapply list_elem_of_lookup_2.
  - exfalso. clear -Hok Hm. revert Hm.
    induction Hok as [|entry l [item Hitem] _ IH]; [done|].
    cbn. rewrite Hitem. cbn. destruct (mapM _ l); [done|]. cbn. intros [= <-]. by apply IH.
Qed.

Lemma get_doctors_lists_every_doctor_witness :
  ∃ updatedDoctors,
    VariantB.get_doctors (C := demo) (E := demo_env) world_finalized
    = (Listed updatedDoctors, world_finalized)
    ∧ ∀ id stored, doctors world_finalized !! id = Some stored ↔
                   ∃ item, item ∈ updatedDoctors
                           ∧ listed_id item = id ∧ listed_fields item = stored.
Proof.
  destruct (get_doctors_lists_every_doctor (C := demo) (E := demo_env) world_finalized)
    as (updatedDoctors & Hlist & _ & Hall).
  - apply videoIds_checked. evaluate.
  - exists updatedDoctors. split; [exact Hlist|exact Hall].
Defined.

(** X18.  In variant B one stored document whose [videoId] is no string makes
    [path.join] throw inside the loop: the whole list is answered 500, the
    error is logged, and no doctor is listed. *)
Theorem get_doctors_fails_without_videoId {C : Collaborators} {E : Environment}
    (w : world) (id : string) (stored : gmap string jvalue) :
  doctors w !! id = Some stored →
  (∀ videoId, stored !! "videoId" ≠ Some (JStr videoId)) →
  VariantB.get_doctors w
  = (ListFailed TypeError, logged (console_error "Error fetching doctors:" TypeError) w).
Proof.
  intros Hdoc Hvid. unfold VariantB.get_doctors.
  rewrite (mapM_result_Throw _ _ (id, stored) TypeError); [done| | |].
  - by apply elem_of_map_to_list.
  - unfold VariantB.updated_doctor.
    rewrite doc_get_schema_path by apply videoId_in_schema. cbn.
    destruct (stored !! "videoId") as [[| | |videoId| |]|]; try done.
    by destruct (Hvid videoId).
  - intros entry e'. unfold VariantB.updated_doctor.
    repeat case_match; congruence.
Qed.

Lemma get_doctors_fails_without_videoId_witness :
  VariantB.get_doctors (C := demo) (E := demo_env) world_null_videoId
  = (ListFailed TypeError,
     logged (console_error "Error fetching doctors:" TypeError) world_null_videoId).
Proof.
  apply (get_doctors_fails_without_videoId (C := demo) (E := demo_env)
           world_null_videoId alice_id
           (default ∅ (doctors world_null_videoId !! alice_id))).
  - apply is_Some_default. evaluate.
  - intros videoId Hvid. vm_compute in Hvid. discriminate Hvid.
Defined.

(** X19.  After a finalize of variant B that answered 200 for the videoId of a
    stored doctor, the list shows this doctor with the URL of the merged
    file under the backend URL. *)
Theorem finalize_then_list {C : Collaborators} {E : Environment}
    (videoId id : string) (stored : gmap string jvalue)
    (w : world) (r : response) (w' : world) :
  VariantB.post_finishUpload videoId w = (Some r, w') → status r = 200%nat →
  doctors w !! id = Some stored →
  stored !! "videoId" = Some (JStr videoId) →
  ∀ updatedDoctors w'',
    VariantB.get_doctors w' = (Listed updatedDoctors, w'') →
    ∃ item, item ∈ updatedDoctors
            ∧ listed_id item = id ∧ listed_fields item = stored
            ∧ videoUrl item
              = Some (template BACK_END_URL +:+ "/videos/" +:+ videoId
                      +:+ "/final_video.webm").
Proof.
  intros Hfin Hst Hdoc Hvid l w'' Hlist.
  destruct (finishUpload_Finished videoId w r w' Hfin Hst)
    as (names & datas & _ & _ & _ & Hw).
  apply readFileSync_write_file in Hw.
  assert (existsSync (disk w') (path_join (videoDir_of videoId) ["final_video.webm"])
          = true) as Hex.
  { unfold existsSync. unfold readFileSync in Hw.
    by destruct (stat _ _). }
  assert (doctors w' = doctors w) as Hsame.
  { unfold VariantB.post_finishUpload in Hfin.
    destruct (join_chunks _ _ _); by outcome. }
  unfold VariantB.get_doctors in Hlist.
  destruct (mapM _ _) as [l'|e] eqn:Hm; [|done]. simplify_eq.
  apply mapM_result_Ok in Hm.
  rewrite Hsame in Hm.
  apply elem_of_map_to_list, list_elem_of_lookup in Hdoc as [i Hi].
  destruct (Forall2_lookup_l _ _ _ _ _ Hm Hi) as (item & Hitem & Hup).
  apply updated_doctor_Ok in Hup as (videoId' & Hvid' & ->). cbn in Hvid'.
  rewrite Hvid in Hvid'. injection Hvid' as <-.
  eexists. split; [by eapply list_elem_of_lookup_2|]. cbn. by rewrite Hex.
Qed.

Lemma finalize_then_list_witness :
  let listed_now :=
    match (VariantB.get_doctors (C := demo) (E := demo_env) world_finalized).1 with
    | Listed updatedDoctors => updatedDoctors
    | ListFailed _ => []
    end in
  ∃ item, item ∈ listed_now
          ∧ listed_id item = alice_id ∧ listed_fields item = alice_stored
          ∧ videoUrl item
            = Some ("https://api.doctors.example/videos/" +:+ alice_videoId
                    +:+ "/final_video.webm").
Proof.
  intros listed_now.
  apply (finalize_then_list (C := demo) (E := demo_env) alice_videoId alice_id
           alice_stored world_uploaded
           {| status := 200;
              json := VideoFile "Video file created successfully"
                        (path_join (videoDir_of (C := demo) alice_videoId)
                           ["final_video.webm"]) |}
           world_finalized)
    with (w'' := (VariantB.get_doctors (C := demo) (E := demo_env) world_finalized).2);
    [apply outcome_eq; evaluate|evaluate..|].
  apply outcome_eq. unfold listed_now. evaluate.
Defined.

(** X20.  In variant A a lookup at Cloudinary that fails costs one doctor its
    [videoUrl] and nothing else: the list is always answered 200 with one
    element per stored doctor, the world is unchanged, and the [videoUrl] of
    an element is [null] exactly when the lookup for its doctor fails. *)
Theorem get_doctors_cloud_lookup
    (resource : option jvalue → result string) (w : world) :
  ∃ updatedDoctors,
    VariantA.get_doctors resource w = (Listed updatedDoctors, w)
    ∧ Forall2 (λ entry item,
                 listed_id item = entry.1 ∧ listed_fields item = entry.2
                 ∧ (videoUrl item = None
                    ↔ ∃ e, resource (entry.2 !! "videoId") = Throw e)
                 ∧ ∀ secure_url, resource (entry.2 !! "videoId") = Ok secure_url →
                                 videoUrl item = Some secure_url)
              (map_to_list (doctors w)) updatedDoctors.
Proof.
  eexists. split; [done|].
  apply Forall2_fmap_r, Forall_Forall2_diag, Forall_forall.
  intros [id stored] _. cbn. unfold doc_get.
  rewrite decide_True by apply videoId_in_schema. cbn.
  destruct (resource (stored !! "videoId")) as [url|e]; split_and!; try done.
  - split; [done|]. by intros [e ?].
  - by intros url' [= ->].
  - split; [by eexists|done].
Qed.

Lemma get_doctors_cloud_lookup_witness :
  ∃ updatedDoctors,
    VariantA.get_doctors (λ _, Throw (CloudError "Resource not found")) world_alice
    = (Listed updatedDoctors, world_alice)
    ∧ Forall (λ item, videoUrl item = None) updatedDoctors.
Proof.
  destruct (get_doctors_cloud_lookup (λ _, Throw (CloudError "Resource not found")) world_alice)
    as (updatedDoctors & Hlist & Hrel).
  exists updatedDoctors. split; [exact Hlist|].
  apply Forall2_Forall_r with (1 := Hrel), Forall_forall.
  intros entry _ item (_ & _ & Hnull & _). apply Hnull. by eexists.
Defined.

(** ** A recording session: uploads, then finalize *)







Lemma no_slash_inv c s : no_slash (String c s) → c ≠ "/"%char ∧ no_slash s.
Proof.
  unfold no_slash. cbn [split]. case_decide as Hc; [done|].
  destruct (split "/" s) as [|x xs] eqn:Hs; [by destruct s; simplify_eq/=|].
  intros [= -> ->]. done.
Qed.

Lemma no_slash_app a b : no_slash a → no_slash b → no_slash (a +:+ b).
Proof.
  induction a as [|c a IH]; [done|]. intros [Hc Ha]%no_slash_inv Hb.
  cbn [String.append]. apply no_slash_cons; [done|by apply IH].
Qed.

Lemma plain_webm name : no_slash name → plain (name +:+ ".webm").
Proof.
  intros Hns.
  assert (5 ≤ String.length (name +:+ ".webm"))%nat as Hlen.
  { rewrite string_app_length. simpl. lia. }
  split_and!; [..|by apply no_slash_app];
    intros Heq; rewrite Heq in Hlen; simpl in Hlen; lia.
Qed.

Lemma write_chunks_stops (d : fs) dir before bad after written datas e :
  Forall2 (λ file data, readFileSync d (path_join dir [file]) = Ok data) before datas →
  readFileSync d (path_join dir [bad]) = Throw e →
  write_chunks d dir (before ++ bad :: after) written = (written ++ datas, Some e).
Proof.
  intros Hall Hbad. revert written.
  induction Hall as [|file data files datas Hread _ IH]; intros written.
  - cbn. by rewrite Hbad, app_nil_r.
  - cbn [app write_chunks]. rewrite Hread, IH. by rewrite <- app_assoc.
Qed.

(** X22.  When one of the [.webm] names of the directory cannot be read, a
    directory for example, the loop throws there and finalize answers 500
    with that error; but the stream was opened before the loop, and the
    output file is left holding the chunks that sort before that name. *)
Theorem finishUpload_partial_output {C : Collaborators} (videoId : string) (w : world)
    (names before after : list string) (bad : string)
    (datas : list (list Byte.byte)) (e : error) :
  let videoDir := videoDir_of videoId in
  let out := segs videoDir ++ ["final_video.webm"] in
  readdirSync (disk w) videoDir = Ok names →
  sort (filter (λ file, endsWith file ".webm" = true) names) = before ++ bad :: after →
  Forall2 (λ file data, readFileSync (disk w) (path_join videoDir [file]) = Ok data)
          before datas →
  readFileSync (disk w) (path_join videoDir [bad]) = Throw e →
  disk w !! out ≠ Some Dir →
  VariantB.post_finishUpload videoId w
  = (respond 500 (ServerError e),
     logged (console_error "Error finalizing video upload:" e)
       (with_disk (<[out := File (mjoin datas)]> (disk w)) w)).
Proof.
  intros videoDir out Hnames Hsorted Hall Hbad Hout.
  unfold VariantB.post_finishUpload, join_chunks, webm_files.
  fold videoDir. rewrite Hnames. cbn. rewrite Hsorted.
  rewrite decide_False by (rewrite length_app; simpl; lia).
  rewrite (write_chunks_stops _ _ _ _ _ _ _ _ Hall Hbad). cbn.
  rewrite output_path, write_file_child; [done| |done].
  by apply readdirSync_Ok in Hnames as [? _].
Qed.

Lemma finishUpload_partial_output_witness :
  let failed := VariantB.post_finishUpload (C := demo) alice_videoId world_dir_chunk in
  status <$> failed.1 = Some 500%nat
  ∧ readFileSync (disk failed.2)
      (path_join (videoDir_of (C := demo) alice_videoId) ["final_video.webm"])
    = Ok (bytes_of "firstsecond").
Proof.
  intros failed. unfold failed.
  rewrite (finishUpload_partial_output (C := demo) alice_videoId world_dir_chunk
             (children (disk world_dir_chunk)
                (segs (videoDir_of (C := demo) alice_videoId)))
             [chunk_file chunk_a; chunk_file chunk_c] [chunk_file chunk_b]
             "1700000000020-d.webm" [content chunk_a; content chunk_c]
             (FsError EISDIR (segs (videoDir_of (C := demo) alice_videoId)
                              ++ ["1700000000020-d.webm"])));
    [|evaluate|evaluate|repeat constructor; evaluate|evaluate|].
  - split; [reflexivity|]. cbn [snd disk logged with_disk].
    rewrite output_path. apply readFileSync_Ok. cbn [segs trailing].
    by rewrite lookup_insert_eq.
  - intros Hdir. vm_compute in Hdir. discriminate Hdir.
Defined.

(** X23.  The failures of the finalize of variant A after the chunks were joined.
    When Cloudinary rejects the upload the answer is 500 and the merged file
    [<videoId>.webm] stays in the directory of the videoId.  When Cloudinary
    accepts it but no doctor has this videoId, the merged file is removed
    and the answer is 500 all the same, the [TypeError] of the assignment to
    [doctor.videoUrl]. *)
Theorem finishUpload_cloud_failure {C : Collaborators} (videoId : string) (w : world)
    (names : list string) (datas : list (list Byte.byte)) :
  let videoDir := videoDir_of videoId in
  let merged := segs videoDir ++ [videoId +:+ ".webm"] in
  no_slash videoId →
  readdirSync (disk w) videoDir = Ok names →
  filter (λ file, endsWith file ".webm" = true) names ≠ [] →
  Forall2 (λ file data, readFileSync (disk w) (path_join videoDir [file]) = Ok data)
          (sort (filter (λ file, endsWith file ".webm" = true) names)) datas →
  disk w !! merged ≠ Some Dir →
  (∀ e, VariantA.post_finishUpload videoId (Throw e) w
        = (respond 500 (ServerError e),
           logged (console_error "Error uploading final video:" e)
             (with_disk (<[merged := File (mjoin datas)]> (disk w)) w)))
  ∧ (∀ secure_url,
       findOne_videoId videoId (doctors w) = None →
       VariantA.post_finishUpload videoId (Ok secure_url) w
       = (respond 500 (ServerError TypeError),
          logged (console_error "Error uploading final video:" TypeError)
            (with_disk (delete merged (disk w)) w))).
Proof.
  intros videoDir merged Hns Hnames Hne Hall Hout.
  assert (∀ upload_reply,
            VariantA.post_finishUpload videoId upload_reply w
            = VariantA.on_finish videoId {| segs := merged; trailing := false |}
                upload_reply
                (with_disk (<[merged := File (mjoin datas)]> (disk w)) w)) as Hjoin.
  { intros upload_reply.
    unfold VariantA.post_finishUpload, join_chunks, webm_files.
    fold videoDir. rewrite Hnames. cbn.
    rewrite decide_False by (by intros ?%sort_nil_inv).
    rewrite (write_chunks_all _ _ _ _ _ Hall). cbn.
    rewrite (path_join_plain videoDir _ (plain_webm _ Hns)).
    rewrite write_file_child; [done| |done].
    by apply readdirSync_Ok in Hnames as [? _]. }
  split.
  - intros e. by rewrite Hjoin.
  - intros secure_url Hnone. rewrite Hjoin. unfold VariantA.on_finish.
    cbn [disk doctors with_disk]. rewrite Hnone.
    unfold unlinkSync, stat. cbn [segs trailing].
    rewrite lookup_insert_eq. cbn. by rewrite delete_insert_eq.
Qed.

Lemma finishUpload_cloud_failure_witness :
  (VariantA.post_finishUpload (C := demo) "bob" (Throw (CloudError "timeout"))
     world_bob_chunks).1
  = respond 500 (ServerError (CloudError "timeout"))
  ∧ (VariantA.post_finishUpload (C := demo) "bob" (Ok "https://res.example/bob")
       world_bob_chunks).1
    = respond 500 (ServerError TypeError).
Proof.
  destruct (finishUpload_cloud_failure (C := demo) "bob" world_bob_chunks
              (children (disk world_bob_chunks) (segs (videoDir_of (C := demo) "bob")))
              [content chunk_a; content chunk_c]) as [Hrejected Hunknown].
  - evaluate.
  - evaluate.
  - intros Hnil. vm_compute in Hnil. discriminate Hnil.
  - replace (sort _) with [chunk_file chunk_a; chunk_file chunk_c] by evaluate.
    repeat constructor; evaluate.
  - intros Hdir. vm_compute in Hdir. discriminate Hdir.
  - split; [by rewrite Hrejected|rewrite Hunknown; [done|evaluate]].
Defined.
